(** * pyGIMLi modelling proxies: region-property cache and LCI bookkeeping

    A shallow embedding of [pygimli/frameworks/modelling.py]: the
    region-property cache of [Modelling] with its lazy application to
    the native region manager, and the per-sounding bookkeeping of
    [LCModelling]. *)

From Stdlib Require Import ZArith QArith String List Lia.
From stdpp Require Import base option list gmap strings fin_maps.

Local Open Scope string_scope.
Local Open Scope list_scope.
Local Open Scope Z_scope.

(** ** Python values and exceptions *)

(** The dynamically typed values the cache holds.  A Python float is
    embedded as the rational it denotes: the code only stores floats and
    tests their sign. *)
#[warnings="-register-all"]
Inductive PyVal : Type :=
| PyInt (z : Z)
| PyFloat (q : Q)
| PyStr (s : string)
| PyList (l : list PyVal).

Inductive PyExc : Type :=
| KeyError
| IndexError
| TypeError
| ValueError
| Exception (msg : string).

(** A computation either raises or returns. *)
Definition Res (A : Type) : Type := PyExc + A.

Definition raise {A} (e : PyExc) : Res A := inl e.
Definition ret {A} (a : A) : Res A := inr a.
Definition bind {A B} (c : Res A) (k : A -> Res B) : Res B :=
  match c with
  | inl e => inl e
  | inr a => k a
  end.

Declare Scope res_scope.
Delimit Scope res_scope with res.
Notation "'do' x <- c ; k" := (bind c (fun x => k))
  (at level 10, x name, c at level 100, k at level 200,
   format "'[v' 'do'  x  <-  c ; '/' k ']'") : res_scope.
Local Open Scope res_scope.

(** [d[k]] on a dict with string keys. *)
Definition getitem (d : gmap string PyVal) (k : string) : Res PyVal :=
  match d !! k with
  | Some v => ret v
  | None => raise KeyError
  end.

(** [v[i]] on a value, for an index that is not negative: a list (or
    tuple) yields its element, a string the one-character string at that
    place, a number is not subscriptable. *)
Definition subscript (v : PyVal) (i : nat) : Res PyVal :=
  match v with
  | PyList l =>
      match l !! i with
      | Some x => ret x
      | None => raise IndexError
      end
  | PyStr s =>
      match String.get i s with
      | Some c => ret (PyStr (String c EmptyString))
      | None => raise IndexError
      end
  | _ => raise TypeError
  end.

(** [v > 0] for a number; other operands are a [TypeError]. *)
Definition gt0 (v : PyVal) : Res bool :=
  match v with
  | PyInt z => ret (0 <? z)
  | PyFloat q => ret (negb (Qle_bool q 0))
  | _ => raise TypeError
  end.

(** ** The native region manager *)

(** Modelled from the spec: the region manager of the native engine is
    not part of the Python sources.  The spec describes it as the
    externally-owned object to which the per-region solver hints (initial
    value, bounds, transformation kind, constraint type, smoothing
    weight) are applied; it is rendered as a finite map from region
    identifier to the hints set so far, [None] standing for a hint that
    was never set.  [RM.region(rID)] is taken to succeed for every
    identifier. *)
Module RegionManager.

Record Region : Type := mkRegion {
  startModel : option PyVal;
  modelTrans : option PyVal;
  constraintType : option PyVal;
  zWeight : option PyVal;
  modelControl : option PyVal;
  lowerBound : option PyVal;
  upperBound : option PyVal
}.

Definition unset : Region := mkRegion None None None None None None None.

Definition region (RM : gmap Z Region) (rID : Z) : Region :=
  default unset (RM !! rID).

Definition update (f : Region -> Region) (rID : Z) (RM : gmap Z Region)
  : gmap Z Region :=
  <[rID := f (region RM rID)]> RM.

(** The setters, on one region's hints. *)
Definition withStartModel (v : PyVal) (r : Region) : Region :=
  mkRegion (Some v) (modelTrans r) (constraintType r) (zWeight r)
    (modelControl r) (lowerBound r) (upperBound r).

Definition withModelTrans (v : PyVal) (r : Region) : Region :=
  mkRegion (startModel r) (Some v) (constraintType r) (zWeight r)
    (modelControl r) (lowerBound r) (upperBound r).

Definition withConstraintType (v : PyVal) (r : Region) : Region :=
  mkRegion (startModel r) (modelTrans r) (Some v) (zWeight r)
    (modelControl r) (lowerBound r) (upperBound r).

Definition withZWeight (v : PyVal) (r : Region) : Region :=
  mkRegion (startModel r) (modelTrans r) (constraintType r) (Some v)
    (modelControl r) (lowerBound r) (upperBound r).

Definition withModelControl (v : PyVal) (r : Region) : Region :=
  mkRegion (startModel r) (modelTrans r) (constraintType r) (zWeight r)
    (Some v) (lowerBound r) (upperBound r).

Definition withLowerBound (v : PyVal) (r : Region) : Region :=
  mkRegion (startModel r) (modelTrans r) (constraintType r) (zWeight r)
    (modelControl r) (Some v) (upperBound r).

Definition withUpperBound (v : PyVal) (r : Region) : Region :=
  mkRegion (startModel r) (modelTrans r) (constraintType r) (zWeight r)
    (modelControl r) (lowerBound r) (Some v).

(** [RM.region(rID).setX(v)] *)
Definition setStartModel (v : PyVal) : Z -> gmap Z Region -> gmap Z Region :=
  update (withStartModel v).

Definition setModelTransStr_ (v : PyVal) : Z -> gmap Z Region -> gmap Z Region :=
  update (withModelTrans v).

Definition setConstraintType (v : PyVal) : Z -> gmap Z Region -> gmap Z Region :=
  update (withConstraintType v).

Definition setZWeight (v : PyVal) : Z -> gmap Z Region -> gmap Z Region :=
  update (withZWeight v).

Definition setModelControl (v : PyVal) : Z -> gmap Z Region -> gmap Z Region :=
  update (withModelControl v).

Definition setLowerBound (v : PyVal) : Z -> gmap Z Region -> gmap Z Region :=
  update (withLowerBound v).

Definition setUpperBound (v : PyVal) : Z -> gmap Z Region -> gmap Z Region :=
  update (withUpperBound v).

End RegionManager.

(** Model transformations are native objects; only their identity is
    kept. *)
Inductive Trans : Type :=
| RTransLog
| RTransLogLU
| NativeTrans (handle : nat).

(** What the native region manager answers when asked whether regions
    carry local transformations, and for the cumulative transformation
    it then hands out. *)
Class NativeRM : Type := {
  haveLocalTrans : gmap Z RegionManager.Region -> bool;
  rmTransModel : gmap Z RegionManager.Region -> Trans
}.

(** ** class Modelling *)

(** The attributes of a [Modelling] object that the region-property
    functions read or write; [RM] is the region manager held by the
    native base class ([super().regionManager()]). *)
Record Modelling : Type := mkModelling {
  _regionProperties : gmap Z (gmap string PyVal);
  _transModel : Trans;
  RM : gmap Z RegionManager.Region
}.

Definition Modelling__init__ (RM0 : gmap Z RegionManager.Region) : Modelling :=
  mkModelling ∅ RTransLog RM0.

Definition clearRegionProperties (self : Modelling) : Modelling :=
  mkModelling ∅ (_transModel self) (RM self).

(** The record a region starts with (lines 77-83). *)
Definition defaults : gmap string PyVal :=
  list_to_map
    [("startModel", PyInt 0);
     ("modelControl", PyFloat 1.0);
     ("zWeights", PyFloat 1.0);
     ("cType", PyInt 1);
     ("limits", PyList [PyInt 0; PyInt 0]);
     ("trans", PyStr "Log")].

(** [if arg is not None: props[region][key] = arg] *)
Definition store (region : Z) (key : string) (arg : option PyVal)
    (props : gmap Z (gmap string PyVal)) : gmap Z (gmap string PyVal) :=
  match arg with
  | Some v => alter (insert key v) region props
  | None => props
  end.

Definition setRegionProperties (region : Z)
    (startModel limits trans cType zWeights modelControl : option PyVal)
    (self : Modelling) : Modelling :=
  let props := _regionProperties self in
  let props :=
    match props !! region with
    | None => <[region := defaults]> props
    | Some _ => props
    end in
  let props := store region "startModel" startModel props in
  let props := store region "limits" limits props in
  let props := store region "trans" trans props in
  let props := store region "cType" cType props in
  let props := store region "zWeights" zWeights props in
  let props := store region "modelControl" modelControl props in
  mkModelling props (_transModel self) (RM self).

(** One iteration of the loop of [_applyRegionProperties] (lines 110-127). *)
Definition applyRegion (rID : Z) (vals : gmap string PyVal)
    (RM : gmap Z RegionManager.Region) : Res (gmap Z RegionManager.Region) :=
  do sm <- getitem vals "startModel";
  let RM := RegionManager.setStartModel sm rID RM in
  do tr <- getitem vals "trans";
  let RM := RegionManager.setModelTransStr_ tr rID RM in
  let RM := match vals !! "cType" with
            | Some v => RegionManager.setConstraintType v rID RM
            | None => RM
            end in
  let RM := match vals !! "zWeights" with
            | Some v => RegionManager.setZWeight v rID RM
            | None => RM
            end in
  let RM := match vals !! "modelControl" with
            | Some v => RegionManager.setModelControl v rID RM
            | None => RM
            end in
  do lim <- getitem vals "limits";
  do lo <- subscript lim 0;
  do b <- gt0 lo;
  let RM := if b : bool then RegionManager.setLowerBound lo rID RM else RM in
  do lim <- getitem vals "limits";
  do hi <- subscript lim 1;
  do b <- gt0 hi;
  let RM := if b : bool then RegionManager.setUpperBound hi rID RM else RM in
  ret RM.

(** [for rID, vals in items: ...] threading the region manager.  The
    dict hands out its items in insertion order and the map in the order
    of its keys; the regions being distinct, the region manager that
    results is the same. *)
Fixpoint applyItems (items : list (Z * gmap string PyVal))
    (RM : gmap Z RegionManager.Region) : Res (gmap Z RegionManager.Region) :=
  match items with
  | [] => ret RM
  | (rID, vals) :: items' =>
      do RM' <- applyRegion rID vals RM;
      applyItems items' RM'
  end.

Definition _applyRegionProperties (self : Modelling) : Res Modelling :=
  do RM' <- applyItems (map_to_list (_regionProperties self)) (RM self);
  ret (mkModelling (_regionProperties self) (_transModel self) RM').

(** [regionManager()]: apply the cache, then hand out the native region
    manager. *)
Definition regionManager (self : Modelling)
    : Res (Modelling * gmap Z RegionManager.Region) :=
  do self' <- _applyRegionProperties self;
  ret (self', RM self').

(** The getter of the [transModel] property. *)
Definition transModel `{NativeRM} (self : Modelling) : Res (Modelling * Trans) :=
  do self1 <- _applyRegionProperties self;
  do r <- regionManager self1;
  if haveLocalTrans (snd r) then
    do r' <- regionManager (fst r);
    ret (fst r', rmTransModel (snd r'))
  else ret (fst r, _transModel (fst r)).

(** The setter of the [transModel] property. *)
Definition set_transModel (tm : Trans) (self : Modelling) : Modelling :=
  mkModelling (_regionProperties self) tm (RM self).

Definition createStartModel (self : Modelling) (dataValues : PyVal)
    (kwargs : gmap string PyVal) : Res (Modelling * PyVal) :=
  raise (Exception "Implement me in derived classes").

Definition estimateError (self : Modelling) (data : PyVal)
    (kwargs : gmap string PyVal) : Res (Modelling * PyVal) :=
  raise (Exception "Needed?? Implement me in derived classes").

(** ** Sequences of [setRegionProperties] calls *)

(** The arguments of one call. *)
Record Call : Type := mkCall {
  c_region : Z;
  c_startModel : option PyVal;
  c_limits : option PyVal;
  c_trans : option PyVal;
  c_cType : option PyVal;
  c_zWeights : option PyVal;
  c_modelControl : option PyVal
}.

Definition call (c : Call) (self : Modelling) : Modelling :=
  setRegionProperties (c_region c) (c_startModel c) (c_limits c) (c_trans c)
    (c_cType c) (c_zWeights c) (c_modelControl c) self.

Definition calls (cs : list Call) (self : Modelling) : Modelling :=
  foldl (fun s c => call c s) self cs.

(** The value a call passes for the field named [key]. *)
Definition passed (c : Call) (key : string) : option PyVal :=
  if decide (key = "startModel") then c_startModel c
  else if decide (key = "limits") then c_limits c
  else if decide (key = "trans") then c_trans c
  else if decide (key = "cType") then c_cType c
  else if decide (key = "zWeights") then c_zWeights c
  else if decide (key = "modelControl") then c_modelControl c
  else None.

(** The last non-[None] value passed for [key] of [region] in a sequence
    of calls, if there is one. *)
Definition lastPassed (region : Z) (key : string) (cs : list Call)
    : option PyVal :=
  last (omap (fun c => if decide (c_region c = region) then passed c key
                       else None) cs).

(** The value the cache holds for [key] of [region]. *)
Definition stored (self : Modelling) (region : Z) (key : string)
    : option PyVal :=
  match _regionProperties self !! region with
  | Some vals => vals !! key
  | None => None
  end.

(** What [key] of [region] holds when no call of the sequence passed a
    value for it: what it held before, or the default if the sequence
    created the region's record. *)
Definition unwritten (self : Modelling) (region : Z) (key : string)
    (cs : list Call) : option PyVal :=
  match _regionProperties self !! region with
  | Some vals => vals !! key
  | None => if bool_decide (region ∈ c_region <$> cs) then defaults !! key
            else None
  end.

(** [if arg is not None: vals[key] = arg] on one record. *)
Definition overwrite (key : string) (arg : option PyVal)
    (vals : gmap string PyVal) : gmap string PyVal :=
  match arg with
  | Some v => <[key := v]> vals
  | None => vals
  end.

(** The record a call leaves for its own region, given the record it
    found there. *)
Definition written (c : Call) (vals : gmap string PyVal)
    : gmap string PyVal :=
  overwrite "modelControl" (c_modelControl c)
    (overwrite "zWeights" (c_zWeights c)
      (overwrite "cType" (c_cType c)
        (overwrite "trans" (c_trans c)
          (overwrite "limits" (c_limits c)
            (overwrite "startModel" (c_startModel c) vals))))).

(** ** Applying the cache, declaratively *)

(** [vals['limits'][i]] when it exists. *)
Definition limit (vals : gmap string PyVal) (i : nat) : option PyVal :=
  match vals !! "limits" with
  | Some (PyList l) => l !! i
  | _ => None
  end.

Definition number (v : PyVal) : bool :=
  match v with
  | PyInt _ | PyFloat _ => true
  | _ => false
  end.

(** A number strictly greater than zero. *)
Definition positive (v : PyVal) : bool :=
  match v with
  | PyInt z => 0 <? z
  | PyFloat q => negb (Qle_bool q 0)
  | _ => false
  end.

(** The records [_applyRegionProperties] can read without raising: the
    two keys it reads unguarded are there and the limits are a list that
    starts with two numbers. *)
Definition applicable (vals : gmap string PyVal) : bool :=
  bool_decide (is_Some (vals !! "startModel")) &&
  bool_decide (is_Some (vals !! "trans")) &&
  from_option number false (limit vals 0) &&
  from_option number false (limit vals 1).

(** The records [setRegionProperties] builds: all six keys, limits a
    pair of numbers. *)
Definition wf_record (vals : gmap string PyVal) : bool :=
  applicable vals &&
  bool_decide (is_Some (vals !! "cType")) &&
  bool_decide (is_Some (vals !! "zWeights")) &&
  bool_decide (is_Some (vals !! "modelControl")).

Definition wf_cache (props : gmap Z (gmap string PyVal)) : Prop :=
  map_Forall (fun _ vals => wf_record vals) props.

(** A [limits] argument that keeps the cache well formed. *)
Definition valid_limits (arg : option PyVal) : bool :=
  match arg with
  | None => true
  | Some (PyList (lo :: hi :: _)) => number lo && number hi
  | Some _ => false
  end.

(** The hints of a region after its record [vals] was applied to a
    region whose hints were [old]. *)
Definition applied (vals : gmap string PyVal) (old : RegionManager.Region)
    : RegionManager.Region :=
  RegionManager.mkRegion
    (vals !! "startModel")
    (vals !! "trans")
    (match vals !! "cType" with
     | Some v => Some v
     | None => RegionManager.constraintType old
     end)
    (match vals !! "zWeights" with
     | Some v => Some v
     | None => RegionManager.zWeight old
     end)
    (match vals !! "modelControl" with
     | Some v => Some v
     | None => RegionManager.modelControl old
     end)
    (match limit vals 0 with
     | Some lo => if positive lo then Some lo else RegionManager.lowerBound old
     | None => RegionManager.lowerBound old
     end)
    (match limit vals 1 with
     | Some hi => if positive hi then Some hi else RegionManager.upperBound old
     | None => RegionManager.upperBound old
     end).

(** The region manager after every record of the cache was applied. *)
Definition appliedAll (props : gmap Z (gmap string PyVal))
    (RM : gmap Z RegionManager.Region) : gmap Z RegionManager.Region :=
  map_imap (fun r vals => Some (applied vals (RegionManager.region RM r))) props
    ∪ RM.

(** The five hints that every application sets are those of the record. *)
Definition hints_set (vals : gmap string PyVal) (r : RegionManager.Region)
    : Prop :=
  ∃ sm tr ct zw mc,
    (vals !! "startModel" = Some sm ∧ RegionManager.startModel r = Some sm) ∧
    (vals !! "trans" = Some tr ∧ RegionManager.modelTrans r = Some tr) ∧
    (vals !! "cType" = Some ct ∧ RegionManager.constraintType r = Some ct) ∧
    (vals !! "zWeights" = Some zw ∧ RegionManager.zWeight r = Some zw) ∧
    (vals !! "modelControl" = Some mc ∧ RegionManager.modelControl r = Some mc).

(** ** Native collaborators of [LCModelling] *)

(** A mesh as far as this layer shapes it: the two axes handed to
    [createMesh2D], whether it was rotated, and its cell markers. *)
Record Mesh : Type := mkMesh {
  xs : list Z;
  ys : list Z;
  rotated : bool;
  cellMarkers : list Z
}.

(** A per-sounding forward operator: a native object, known here by its
    class, its identity, the arguments it was built and configured with,
    and the models its [createJacobian] was called on. *)
Record Fop : Type := mkFop {
  fopType : string;
  fopId : nat;
  fopVerbose : bool;
  multiThreadJacobian : option Z;
  fopMesh : option Mesh;
  createJacobianCalls : list (list Q)
}.

(** The forward response of an operator is computed by the native
    engine. *)
Class NativeFop : Type := {
  fopResponse : Fop -> list Q -> list Q
}.

(** Modelled from the spec: the native block matrix is not part of the
    Python sources.  The spec has the layer "record offsets in a block
    matrix": the matrix is rendered as the list of sub-matrices added to
    it, each the Jacobian of the operator with the given identity, and
    the list of entries that place a sub-matrix at a row and a column
    offset.  [addMatrix] answers with the index of the matrix it
    added. *)
Module BlockMatrix.

Record t : Type := mk {
  matrices : list nat;
  entries : list (nat * Z * Z)
}.

Definition new : t := mk [] [].

Definition clear (B : t) : t := mk [] [].

Definition addMatrix (jacobianOf : nat) (B : t) : nat * t :=
  (length (matrices B), mk (matrices B ++ [jacobianOf]) (entries B)).

Definition addMatrixEntry (nID : nat) (rowStart colStart : Z) (B : t) : t :=
  mk (matrices B) (entries B ++ [(nID, rowStart, colStart)]).

(** The sizes it recomputes are those of the native sub-matrices. *)
Definition recalcMatrixSize (B : t) : t := B.

End BlockMatrix.

(** The Jacobian installed in the native base class: its own, or the
    block matrix the object keeps in [_jac]. *)
Inductive Jacobian : Type :=
| OwnJacobian
| BlockJacobian.

(** ** numpy and Python helpers *)

(** [range(n)] *)
Definition range (n : Z) : list nat := seq 0 (Z.to_nat n).

(** [for i in r: body], threading the state. *)
Fixpoint for_ {S : Type} (r : list nat) (body : nat -> S -> Res S) (s : S)
    : Res S :=
  match r with
  | [] => ret s
  | i :: r' => do s' <- body i s; for_ r' body s'
  end.

(** [np.ones(n)] *)
Definition ones (n : Z) : Res (list Z) :=
  if n <? 0 then raise ValueError else ret (repeat 1 (Z.to_nat n)).

(** A slice bound brought into [0 .. len]. *)
Definition clip (len i : Z) : Z :=
  if i <? 0 then Z.max (i + len) 0 else Z.min i len.

(** [cm[a:b] += v] *)
Definition slice_add (a b v : Z) (cm : list Z) : list Z :=
  let len := Z.of_nat (length cm) in
  let lo := clip len a in
  let hi := clip len b in
  imap (fun k x => if (lo <=? Z.of_nat k) && (Z.of_nat k <? hi) then x + v
                   else x) cm.

(** The rows of a flat array cut into [n] rows of [p] entries. *)
Fixpoint rows {A : Type} (n p : nat) (l : list A) : list (list A) :=
  match n with
  | O => []
  | S n' => take p l :: rows n' p (drop p l)
  end.

(** [np.asarray(par).reshape(n, p)]: a negative dimension is inferred
    from the size, and at most one may be. *)
Definition reshape {A : Type} (n p : Z) (par : list A) : Res (list (list A)) :=
  let size := Z.of_nat (length par) in
  if (n <? 0) && (p <? 0) then raise ValueError
  else if n <? 0 then
    if (p =? 0) || negb (size mod p =? 0) then raise ValueError
    else ret (rows (Z.to_nat (size / p)) (Z.to_nat p) par)
  else if p <? 0 then
    if (n =? 0) || negb (size mod n =? 0) then raise ValueError
    else ret (rows (Z.to_nat n) (Z.to_nat (size / n)) par)
  else if size =? n * p then ret (rows (Z.to_nat n) (Z.to_nat p) par)
  else raise ValueError.

(** [l[i]] on a Python list. *)
Definition index {A : Type} (l : list A) (i : nat) : Res A :=
  match l !! i with
  | Some x => ret x
  | None => raise IndexError
  end.

(** ** class LCModelling *)

(** The attributes [LCModelling] adds, together with what its methods
    hand to the native base class: the [verbose] flag they read, the mesh
    given to [setMesh], the Jacobian given to [setJacobian].  [fop] is
    the attribute of [Modelling] that [setMesh] looks at; [fops1D] is the
    attribute that line 429 assigns; [fresh] numbers the operators
    created so far. *)
Record LCModelling : Type := mkLCModelling {
  verbose : bool;
  fop : option Fop;
  mesh : option Mesh;
  jacobian : Jacobian;
  _singleRegion : bool;
  _fopTemplate : Fop;
  _fops1D : list Fop;
  fops1D : option (list Fop);
  _mesh : option Mesh;
  _nSoundings : Z;
  _parPerSounding : Z;
  _jac : option BlockMatrix.t;
  fresh : nat
}.

Definition LCModelling__init__ (fop : Fop) (verbose : bool) : LCModelling :=
  {| verbose := verbose; fop := None; mesh := None; jacobian := OwnJacobian;
     _singleRegion := true; _fopTemplate := fop; _fops1D := []; fops1D := None;
     _mesh := None; _nSoundings := 0; _parPerSounding := 0; _jac := None;
     fresh := S (fopId fop) |}.

(** [Modelling.setMesh], inherited: the mesh goes to the forward operator
    if there is one and to the native base class otherwise. *)
Definition setMesh (m : Mesh) (self : LCModelling) : LCModelling :=
  match fop self with
  | Some f =>
      let f' := mkFop (fopType f) (fopId f) (fopVerbose f)
                  (multiThreadJacobian f) (Some m) (createJacobianCalls f) in
      {| verbose := verbose self; fop := Some f'; mesh := mesh self;
         jacobian := jacobian self; _singleRegion := _singleRegion self;
         _fopTemplate := _fopTemplate self; _fops1D := _fops1D self;
         fops1D := fops1D self; _mesh := _mesh self;
         _nSoundings := _nSoundings self;
         _parPerSounding := _parPerSounding self; _jac := _jac self;
         fresh := fresh self |}
  | None =>
      {| verbose := verbose self; fop := fop self; mesh := Some m;
         jacobian := jacobian self; _singleRegion := _singleRegion self;
         _fopTemplate := _fopTemplate self; _fops1D := _fops1D self;
         fops1D := fops1D self; _mesh := _mesh self;
         _nSoundings := _nSoundings self;
         _parPerSounding := _parPerSounding self; _jac := _jac self;
         fresh := fresh self |}
  end.

(** The markers of the cells when the regions are told apart (lines
    386-390). *)
Definition regionMarkers (nSoundings nLayers nPar parPerSounding : Z)
    (cm : list Z) : list Z :=
  foldl (fun cm i =>
    foldl (fun cm j =>
      slice_add
        (Z.of_nat i * parPerSounding + (Z.of_nat j + 1) * nLayers - 1)
        (Z.of_nat i * parPerSounding + (Z.of_nat j + 2) * nLayers - 1)
        (Z.of_nat j + 1) cm)
      cm (range nPar))
    cm (range nSoundings).

Definition createParametrization (nSoundings nLayers nPar : Z)
    (self : LCModelling) : Res LCModelling :=
  let nCols := (nPar + 1) * nLayers - 1 in
  let m := mkMesh (Z.of_nat <$> range (nCols + 1))
             (Z.of_nat <$> range (nSoundings + 1)) true [] in
  do cm <- ones (nCols * nSoundings);
  let cm := if _singleRegion self then cm
            else regionMarkers nSoundings nLayers nPar nCols cm in
  let m := mkMesh (xs m) (ys m) (rotated m) cm in
  ret (setMesh m
    {| verbose := verbose self; fop := fop self; mesh := mesh self;
       jacobian := jacobian self; _singleRegion := _singleRegion self;
       _fopTemplate := _fopTemplate self; _fops1D := _fops1D self;
       fops1D := fops1D self; _mesh := Some m;
       _nSoundings := nSoundings; _parPerSounding := nCols;
       _jac := _jac self; fresh := fresh self |}).

(** What the loop of [initJacobian] changes: the list [self._fops1D],
    the count of operators created, the block matrix [self._jac] and the
    counter [nData]. *)
Record InitLoop : Type := mkInitLoop {
  loopFops : list Fop;
  loopFresh : nat;
  loopJac : BlockMatrix.t;
  nData : Z
}.

(** One iteration of the loop of [initJacobian] (lines 432-439). *)
Definition initSounding (self : LCModelling) (dataVals : list (list Q))
    (i : nat) (st : InitLoop) : Res InitLoop :=
  let f := mkFop (fopType (_fopTemplate self)) (loopFresh st) (verbose self)
             None None [] in
  let f := mkFop (fopType f) (fopId f) (fopVerbose f)
             (Some (_parPerSounding self)) (fopMesh f)
             (createJacobianCalls f) in
  let fops := loopFops st ++ [f] in
  let added := BlockMatrix.addMatrix (fopId f) (loopJac st) in
  let jac := BlockMatrix.addMatrixEntry (fst added) (nData st)
               (_parPerSounding self * Z.of_nat i) (snd added) in
  do d <- index dataVals i;
  ret (mkInitLoop fops (S (loopFresh st)) jac (nData st + Z.of_nat (length d))).

Definition initJacobian (dataVals : list (list Q)) (nLayers : Z)
    (self : LCModelling) : Res LCModelling :=
  let nSoundings := Z.of_nat (length dataVals) in
  do self <- createParametrization nSoundings nLayers 1 self;
  let jac := match _jac self with
             | Some B => BlockMatrix.clear B
             | None => BlockMatrix.new
             end in
  do st <- for_ (range nSoundings) (initSounding self dataVals)
             (mkInitLoop (_fops1D self) (fresh self) jac 0);
  let jac := BlockMatrix.recalcMatrixSize (loopJac st) in
  ret {| verbose := verbose self; fop := fop self; mesh := mesh self;
         jacobian := BlockJacobian; _singleRegion := _singleRegion self;
         _fopTemplate := _fopTemplate self; _fops1D := loopFops st;
         fops1D := Some []; _mesh := _mesh self;
         _nSoundings := _nSoundings self;
         _parPerSounding := _parPerSounding self; _jac := Some jac;
         fresh := loopFresh st |}.

(** [LCModelling.response] (lines 341-351). *)
Definition response `{NativeFop} (par : list Q) (self : LCModelling)
    : Res (list Q) :=
  do mods <- reshape (_nSoundings self) (_parPerSounding self) par;
  for_ (range (_nSoundings self))
    (fun i resp =>
       do f <- index (_fops1D self) i;
       do m <- index mods i;
       ret (resp ++ fopResponse f m))
    [].

(** [f.createJacobian(model)] on the operator held at position [i]. *)
Definition fopCreateJacobian (model : list Q) (f : Fop) : Fop :=
  mkFop (fopType f) (fopId f) (fopVerbose f) (multiThreadJacobian f)
    (fopMesh f) (createJacobianCalls f ++ [model]).

(** [LCModelling.createJacobian] (lines 353-358). *)
Definition createJacobian (par : list Q) (self : LCModelling)
    : Res LCModelling :=
  do mods <- reshape (_nSoundings self) (_parPerSounding self) par;
  do fops <- for_ (range (_nSoundings self))
               (fun i fops =>
                  do f <- index fops i;
                  do m <- index mods i;
                  ret (<[i := fopCreateJacobian m f]> fops))
               (_fops1D self);
  ret {| verbose := verbose self; fop := fop self; mesh := mesh self;
         jacobian := jacobian self; _singleRegion := _singleRegion self;
         _fopTemplate := _fopTemplate self; _fops1D := fops;
         fops1D := fops1D self; _mesh := _mesh self;
         _nSoundings := _nSoundings self;
         _parPerSounding := _parPerSounding self; _jac := _jac self;
         fresh := fresh self |}.

(** ** The per-sounding bookkeeping, declaratively *)

(** The [i]-th consecutive chunk of [p] entries. *)
Definition chunk {A : Type} (p i : nat) (par : list A) : list A :=
  take p (drop (i * p) par).

(** The sum of [len(dataVals[0])] .. [len(dataVals[i-1])]. *)
Definition rowOffset (dataVals : list (list Q)) (i : nat) : Z :=
  Z.of_nat (sum_list_with length (take i dataVals)).

(** The operators are there for every sounding and the two counts are
    counts: the state [initJacobian] leaves. *)
Definition ready (self : LCModelling) : Prop :=
  0 <= _nSoundings self ∧ 0 <= _parPerSounding self ∧
  (Z.to_nat (_nSoundings self) <= length (_fops1D self))%nat.

(** The concatenation, in sounding order, of the response of the [i]-th
    operator to the [i]-th chunk. *)
Definition stitched `{NativeFop} (self : LCModelling) (par : list Q) : list Q :=
  concat
    (imap (fun i f => fopResponse f
                        (chunk (Z.to_nat (_parPerSounding self)) i par))
       (take (Z.to_nat (_nSoundings self)) (_fops1D self))).

(** The operator [initJacobian] creates for sounding [i]. *)
Definition newFop (self : LCModelling) (nLayers : Z) (i : nat) : Fop :=
  mkFop (fopType (_fopTemplate self)) (fresh self + i) (verbose self)
    (Some (2 * nLayers - 1)) None [].

(** ** class Block1DModelling *)

(** The mesh [pg.createMesh1DBlock(nLayers, nBlocks)] builds. *)
Inductive Mesh1D : Type :=
| Mesh1DBlock (nLayers nBlocks : Z).

(** What the native layer makes of a mesh: the region manager of the
    base class after its [setMesh], and the region manager a forward
    operator hands out after its own [setMesh]. *)
Class NativeMesh1D : Type := {
  meshRegionManager :
    Mesh1D -> bool -> gmap Z RegionManager.Region -> gmap Z RegionManager.Region;
  fopRegionManager : Fop -> Mesh1D -> bool -> gmap Z RegionManager.Region
}.

(** A [Block1DModelling] object: what it inherits from [Modelling], the
    forward operator of [Modelling] with the mesh last handed to it, the
    mesh and the thread count held by the native base class, and its own
    two attributes. *)
Record Block1DModelling : Type := mkBlock1DModelling {
  modelling : Modelling;
  blockFop : option Fop;
  blockFopMesh : option Mesh1D;
  blockMesh : option Mesh1D;
  threadCount : option Z;
  _withMultiThread : bool;
  _nBlocks : Z
}.

Module Block1D.

(** [Block1DModelling(nBlocks, fop=...)] *)
Definition __init__ (nBlocks : Z) (fop : option Fop)
    (RM0 : gmap Z RegionManager.Region) : Block1DModelling :=
  mkBlock1DModelling (Modelling__init__ RM0) fop None None None true nBlocks.

(** [Modelling.setMesh], inherited (lines 57-66). *)
Definition setMesh `{NativeMesh1D} (mesh : Mesh1D) (ignoreRegionManager : bool)
    (self : Block1DModelling) : Block1DModelling :=
  match blockFop self with
  | Some f =>
      let RM' := if ignoreRegionManager then RM (modelling self)
                 else fopRegionManager f mesh ignoreRegionManager in
      mkBlock1DModelling
        (mkModelling (_regionProperties (modelling self))
           (_transModel (modelling self)) RM')
        (blockFop self) (Some mesh) (blockMesh self) (threadCount self)
        (_withMultiThread self) (_nBlocks self)
  | None =>
      mkBlock1DModelling
        (mkModelling (_regionProperties (modelling self))
           (_transModel (modelling self))
           (meshRegionManager mesh ignoreRegionManager (RM (modelling self))))
        (blockFop self) (blockFopMesh self) (Some mesh) (threadCount self)
        (_withMultiThread self) (_nBlocks self)
  end.

(** [self.setRegionProperties(i, trans='log')] *)
Definition logRegion (i : nat) (self : Modelling) : Modelling :=
  setRegionProperties (Z.of_nat i) None None (Some (PyStr "log")) None None
    None self.

(** [for i in l: self.setRegionProperties(i, trans='log')] *)
Definition logRegions (l : list nat) (self : Modelling) : Modelling :=
  foldl (fun m i => logRegion i m) self l.

(** [setLayers] (lines 182-196). *)
Definition setLayers `{NativeMesh1D} (nLayers : Z) (self : Block1DModelling)
    : Res Block1DModelling :=
  if nLayers <? 2
  then raise (Exception "Number of layers need to be at least 2")
  else
    let mesh := Mesh1DBlock nLayers (_nBlocks self) in
    let self := setMesh mesh false self in
    let m := logRegions (range (_nBlocks self + 1)) (modelling self) in
    let threads := if _withMultiThread self then Some (2 * nLayers - 1)
                   else threadCount self in
    do m' <- _applyRegionProperties m;
    ret (mkBlock1DModelling m' (blockFop self) (blockFopMesh self)
           (blockMesh self) threads (_withMultiThread self) (_nBlocks self)).

End Block1D.

(** ** More of [LCModelling] *)

(** The start model of one sounding is made by the native operator. *)
Class NativeStartModel : Type := {
  fopCreateStartModel : Fop -> list Q -> Z -> list Q
}.

(** The loop of [LCModelling.createStartModel] (lines 335-336), from the
    operator at position [i] on. *)
Fixpoint startModels `{NativeStartModel} (fops : list Fop) (i : nat)
    (models : list (list Q)) (nLayers : Z) (sm : list Q) : Res (list Q) :=
  match fops with
  | [] => ret sm
  | f :: fops' =>
      do m <- index models i;
      startModels fops' (S i) models nLayers
        (sm ++ fopCreateStartModel f m nLayers)
  end.

(** [LCModelling.createStartModel] (lines 333-339): the vector handed to
    [setStartModel] of the native base class, and the vector returned. *)
Definition LC_createStartModel `{NativeStartModel} (models : list (list Q))
    (nLayers : Z) (self : LCModelling) : Res (list Q * list Q) :=
  do sm <- startModels (_fops1D self) 0 models nLayers [];
  ret (sm, sm).

(** ** Concrete objects *)

(** Three calls for region 1 and one for region 2, on a fresh object. *)
Definition exampleCalls : list Call :=
  [ mkCall 1 (Some (PyFloat 100)) None None None None None;
    mkCall 1 None (Some (PyList [PyFloat 0.5; PyInt 0])) (Some (PyStr "log"))
      None None None;
    mkCall 2 (Some (PyInt 7)) None None (Some (PyInt 0)) None None;
    mkCall 1 (Some (PyInt 3)) None None None None None ].

Definition exampleModelling : Modelling :=
  calls exampleCalls (Modelling__init__ ∅).

(** A call that passes a z-weight only. *)
Definition exampleCall : Call :=
  mkCall 1 None None None None (Some (PyFloat 0.2)) None.

(** A call for a region the example object has no record of. *)
Definition exampleNewCall : Call :=
  mkCall 5 None (Some (PyList [PyInt 1; PyInt 1000])) None None None None.

(** The example object after its cache was applied. *)
Definition exampleApplied : Modelling :=
  mkModelling (_regionProperties exampleModelling)
    (_transModel exampleModelling)
    (appliedAll (_regionProperties exampleModelling) (RM exampleModelling)).

(** A region manager without local transformations. *)
Definition plainRM : NativeRM :=
  {| haveLocalTrans := fun _ => false; rmTransModel := fun _ => RTransLog |}.

(** An operator class whose response puts the identity of the operator in
    front of the model it is given. *)
Definition taggingFop : NativeFop :=
  {| fopResponse := fun f m => inject_Z (Z.of_nat (fopId f)) :: m |}.

Definition ves : Fop := mkFop "VES" 0 false None None [].

Definition exampleData : list (list Q) := [[1%Q; 2%Q]; [3%Q]].

Definition exampleLC : LCModelling := LCModelling__init__ ves true.

(** The object after [initJacobian(exampleData, 2)]. *)
Definition exampleLC1 : LCModelling :=
  match initJacobian exampleData 2 exampleLC with
  | inr self => self
  | inl _ => exampleLC
  end.

Definition examplePar : list Q := [1%Q; 2%Q; 3%Q; 4%Q; 5%Q; 6%Q].

(** A call for region 2 of the example object. *)
Definition exampleCall2 : Call :=
  mkCall 2 None None (Some (PyStr "Lin")) None None None.

(** A native layer in which a mesh leaves the region manager of the base
    class as it is and a forward operator starts with an empty one. *)
Definition plainMesh : NativeMesh1D :=
  {| meshRegionManager := fun _ _ RM => RM;
     fopRegionManager := fun _ _ _ => ∅ |}.

(** A new block model of one block, without forward operator. *)
Definition exampleBlock : Block1DModelling := Block1D.__init__ 1 None ∅.

(** An operator class whose start model is the data it is given. *)
Definition echoStart : NativeStartModel :=
  {| fopCreateStartModel := fun _ m _ => m |}.

(** The object after [createParametrization(2, nLayers=2)] alone. *)
Definition exampleLC0 : LCModelling :=
  match createParametrization 2 2 1 exampleLC with
  | inr self => self
  | inl _ => exampleLC
  end.

(** The example object telling its regions apart. *)
Definition exampleLCregions : LCModelling :=
  {| verbose := true; fop := None; mesh := None; jacobian := OwnJacobian;
     _singleRegion := false; _fopTemplate := ves; _fops1D := []; fops1D := None;
     _mesh := None; _nSoundings := 0; _parPerSounding := 0; _jac := None;
     fresh := 1 |}.

(** * Properties of the region-property cache *)

Section Cache.

Implicit Types (self : Modelling) (c : Call) (cs : list Call).
Implicit Types (region : Z) (key : string).
Implicit Types (vals : gmap string PyVal).

Lemma lookup_store_ne region region' key arg
    (props : gmap Z (gmap string PyVal)) :
  region ≠ region' → store region key arg props !! region' = props !! region'.
Proof.
  intros Hne. destruct arg as [v|]; simpl; [|done].
  by rewrite lookup_alter_ne.
Qed.

Lemma lookup_store_eq region key arg (props : gmap Z (gmap string PyVal)) :
  store region key arg props !! region =
    overwrite key arg <$> props !! region.
Proof.
  destruct arg as [v|]; simpl.
  - by rewrite lookup_alter_eq.
  - by destruct (props !! region).
Qed.

Lemma lookup_call_eq c self :
  _regionProperties (call c self) !! c_region c =
    Some (written c (default defaults (_regionProperties self !! c_region c))).
Proof.
  unfold call, setRegionProperties; simpl.
  rewrite !lookup_store_eq.
  destruct (_regionProperties self !! c_region c) as [vals|] eqn:E; simpl.
  - by rewrite E.
  - by rewrite lookup_insert_eq.
Qed.

Lemma lookup_call_ne c self region :
  c_region c ≠ region →
  _regionProperties (call c self) !! region = _regionProperties self !! region.
Proof.
  intros Hne. unfold call, setRegionProperties; simpl.
  rewrite !lookup_store_ne by done.
  destruct (_regionProperties self !! c_region c); [done|].
  by rewrite lookup_insert_ne.
Qed.

Lemma lookup_overwrite key' arg vals key :
  overwrite key' arg vals !! key =
    if decide (key = key') then
      match arg with
      | Some v => Some v
      | None => vals !! key
      end
    else vals !! key.
Proof.
  unfold overwrite. case_decide as Hk; destruct arg as [v|]; simpl; try done.
  - subst. apply lookup_insert_eq.
  - by rewrite lookup_insert_ne.
Qed.

Lemma lookup_written c vals key :
  written c vals !! key =
    match passed c key with
    | Some v => Some v
    | None => vals !! key
    end.
Proof.
  unfold written, passed. rewrite !lookup_overwrite.
  repeat case_decide; simplify_eq; by repeat case_match.
Qed.

Lemma stored_call c self region key :
  stored (call c self) region key =
    if decide (c_region c = region) then
      match passed c key with
      | Some v => Some v
      | None => default defaults (_regionProperties self !! region) !! key
      end
    else stored self region key.
Proof.
  unfold stored. case_decide as Hr.
  - subst region. by rewrite lookup_call_eq, lookup_written.
  - by rewrite lookup_call_ne.
Qed.

Lemma calls_snoc cs c self : calls (cs ++ [c]) self = call c (calls cs self).
Proof. unfold calls. by rewrite foldl_app. Qed.

Lemma lastPassed_snoc region key cs c :
  lastPassed region key (cs ++ [c]) =
    match (if decide (c_region c = region) then passed c key else None) with
    | Some v => Some v
    | None => lastPassed region key cs
    end.
Proof.
  unfold lastPassed. rewrite omap_app, last_app. simpl.
  by destruct (if decide (c_region c = region) then passed c key else None).
Qed.

(** A region has a record after a sequence of calls exactly when it had
    one before or some call of the sequence names it. *)
Lemma cached_calls cs self region :
  is_Some (_regionProperties (calls cs self) !! region) ↔
  is_Some (_regionProperties self !! region) ∨ region ∈ c_region <$> cs.
Proof.
  induction cs as [|c cs IH] using rev_ind.
  - simpl. split; [by left|]. intros [?|Hin]; [done|]. by apply elem_of_nil in Hin.
  - rewrite calls_snoc, fmap_app, elem_of_app.
    change (c_region <$> [c]) with [c_region c].
    rewrite list_elem_of_singleton.
    destruct (decide (c_region c = region)) as [Hr|Hne].
    + rewrite <- Hr at 1. rewrite lookup_call_eq.
      split; [intros _; by right; right | by eauto].
    + rewrite lookup_call_ne by done. rewrite IH. intuition congruence.
Qed.

Lemma unwritten_snoc_ne self region key cs c :
  c_region c ≠ region →
  unwritten self region key (cs ++ [c]) = unwritten self region key cs.
Proof.
  intros Hne. unfold unwritten.
  destruct (_regionProperties self !! region); [done|].
  apply (f_equal (fun b : bool => if b then defaults !! key else None)).
  apply bool_decide_ext. rewrite fmap_app, elem_of_app.
  change (c_region <$> [c]) with [c_region c].
  rewrite list_elem_of_singleton. intuition congruence.
Qed.

(** The cache after a sequence of calls, field by field. *)
Lemma stored_calls cs self region key :
  stored (calls cs self) region key =
    match lastPassed region key cs with
    | Some v => Some v
    | None => unwritten self region key cs
    end.
Proof.
  induction cs as [|c cs IH] using rev_ind.
  - unfold stored, unwritten, lastPassed. simpl.
    by destruct (_regionProperties self !! region).
  - rewrite calls_snoc, stored_call, lastPassed_snoc.
    case_decide as Hr; [|by rewrite unwritten_snoc_ne].
    destruct (passed c key) as [v|]; [done|].
    pose proof (cached_calls cs self region) as Hc.
    unfold stored in IH.
    destruct (_regionProperties (calls cs self) !! region) as [vals|] eqn:E; simpl.
    + rewrite IH. destruct (lastPassed region key cs); [done|].
      unfold unwritten.
      destruct (_regionProperties self !! region) as [vals0|] eqn:E0; [done|].
      destruct Hc as [[Hc|Hc] _]; [done|by destruct Hc|].
      rewrite !bool_decide_eq_true_2; [done| |done].
      rewrite fmap_app, elem_of_app. by left.
    + destruct (lastPassed region key cs); [done|].
      unfold unwritten.
      destruct (_regionProperties self !! region) as [vals0|] eqn:E0.
      { destruct Hc as [_ Hc]. destruct Hc as [? Hc]; [by left; eauto|done]. }
      rewrite bool_decide_eq_true_2; [done|].
      rewrite fmap_app, elem_of_app. right. subst region. by left.
Qed.

(** C1. Last write wins per field: after any sequence of
    [setRegionProperties] calls, a field of a region's cached record
    holds the last non-[None] value the sequence passed for it, and what
    it held before (or its default, if the sequence created the record)
    when no call passed one; a call that passes [None] for a field of a
    region already in the cache leaves the stored value of that field as
    it was. *)
Theorem setRegionProperties_last_write_wins self region key :
  (∀ cs v,
      lastPassed region key cs = Some v →
      stored (calls cs self) region key = Some v) ∧
  (∀ cs,
      lastPassed region key cs = None →
      stored (calls cs self) region key = unwritten self region key cs) ∧
  (∀ c,
      passed c key = None →
      is_Some (_regionProperties self !! region) →
      stored (call c self) region key = stored self region key).
Proof.
  split; [|split].
  - intros cs v Hv. by rewrite stored_calls, Hv.
  - intros cs Hnone. by rewrite stored_calls, Hnone.
  - intros c Hnone [vals Hvals]. rewrite stored_call, Hnone.
    case_decide; [|done]. unfold stored. by rewrite Hvals.
Qed.

(** C9. A call for a region that has no record yet first gives it the
    default record ([startModel] 0, [modelControl] 1.0, [zWeights] 1.0,
    [cType] 1, [limits] [0, 0], [trans] 'Log') and then writes the
    non-[None] arguments over it: every field holds the argument passed
    for it, or else its default. *)
Theorem setRegionProperties_new_region self c :
  _regionProperties self !! c_region c = None →
  (∃ vals,
      _regionProperties (call c self) !! c_region c = Some vals ∧
      ∀ key,
        vals !! key =
          match passed c key with
          | Some v => Some v
          | None => defaults !! key
          end) ∧
  defaults !! "startModel" = Some (PyInt 0) ∧
  defaults !! "modelControl" = Some (PyFloat 1.0) ∧
  defaults !! "zWeights" = Some (PyFloat 1.0) ∧
  defaults !! "cType" = Some (PyInt 1) ∧
  defaults !! "limits" = Some (PyList [PyInt 0; PyInt 0]) ∧
  defaults !! "trans" = Some (PyStr "Log").
Proof.
  intros Hnew. split; [|by vm_compute].
  exists (written c defaults). rewrite lookup_call_eq, Hnew.
  split; [done|]. intros key. apply lookup_written.
Qed.

(** C8. The abstract methods of the base class raise for every
    input. *)
Theorem abstract_methods_raise self (v : PyVal) (kwargs : gmap string PyVal) :
  createStartModel self v kwargs =
    inl (Exception "Implement me in derived classes") ∧
  estimateError self v kwargs =
    inl (Exception "Needed?? Implement me in derived classes").
Proof. by split. Qed.

(** Well-formedness of the cache is what [setRegionProperties]
    maintains, as long as the limits it is given are a pair of numbers. *)
Lemma wf_defaults : wf_record defaults.
Proof. by vm_compute. Qed.

Lemma wf_written c vals :
  wf_record vals → valid_limits (c_limits c) → wf_record (written c vals).
Proof.
  unfold wf_record, applicable, limit.
  rewrite !andb_True, !bool_decide_spec, !lookup_written.
  change (passed c "startModel") with (c_startModel c).
  change (passed c "trans") with (c_trans c).
  change (passed c "limits") with (c_limits c).
  change (passed c "cType") with (c_cType c).
  change (passed c "zWeights") with (c_zWeights c).
  change (passed c "modelControl") with (c_modelControl c).
  intros ((((((Hsm & Htr) & Hlo) & Hhi) & Hct) & Hzw) & Hmc) Hlim.
  repeat split.
  - by destruct (c_startModel c).
  - by destruct (c_trans c).
  - destruct (c_limits c) as [[| | |[|lo [|hi l]]]|]; try done.
    simpl in *. by apply andb_True in Hlim as [? _].
  - destruct (c_limits c) as [[| | |[|lo [|hi l]]]|]; try done.
    simpl in *. by apply andb_True in Hlim as [_ ?].
  - by destruct (c_cType c).
  - by destruct (c_zWeights c).
  - by destruct (c_modelControl c).
Qed.

Lemma wf_call c self :
  wf_cache (_regionProperties self) →
  valid_limits (c_limits c) →
  wf_cache (_regionProperties (call c self)).
Proof.
  intros Hwf Hlim r vals. destruct (decide (c_region c = r)) as [<-|Hne].
  - rewrite lookup_call_eq. intros [= <-]. apply wf_written; [|done].
    destruct (_regionProperties self !! c_region c) as [vals|] eqn:E; simpl.
    + by eapply Hwf.
    + apply wf_defaults.
  - rewrite lookup_call_ne by done. apply Hwf.
Qed.


End Cache.

(** * Applying the cache to the region manager *)

Section Apply.

Import RegionManager.

Implicit Types (self : Modelling) (rID : Z).
Implicit Types (vals : gmap string PyVal) (RM : gmap Z Region).

Lemma update_insert f rID (x : Region) RM :
  update f rID (<[rID := x]> RM) = <[rID := f x]> RM.
Proof.
  unfold update, region. by rewrite lookup_insert_eq, insert_insert_eq.
Qed.

Lemma update_opt {A} (o : option A) (f : A → Region → Region) rID x RM :
  match o with
  | Some v => update (f v) rID (<[rID := x]> RM)
  | None => <[rID := x]> RM
  end = <[rID := match o with Some v => f v x | None => x end]> RM.
Proof. destruct o; [apply update_insert|done]. Qed.

Lemma update_if (b : bool) (f : Region → Region) rID x RM :
  (if b then update f rID (<[rID := x]> RM) else <[rID := x]> RM) =
    <[rID := if b then f x else x]> RM.
Proof. destruct b; [apply update_insert|done]. Qed.

Lemma gt0_number v : number v → gt0 v = inr (positive v).
Proof. by destruct v. Qed.

Lemma gt0_inr v b : gt0 v = inr b → number v ∧ b = positive v.
Proof. destruct v; unfold gt0, ret, raise; intros ?; by simplify_eq. Qed.

Lemma applicable_spec vals :
  applicable vals ↔
  ∃ sm tr l lo hi,
    vals !! "startModel" = Some sm ∧ vals !! "trans" = Some tr ∧
    vals !! "limits" = Some (PyList l) ∧
    l !! 0%nat = Some lo ∧ l !! 1%nat = Some hi ∧ number lo ∧ number hi.
Proof.
  unfold applicable, limit. rewrite !andb_True, !bool_decide_spec. split.
  - intros [[[[sm ?] [tr ?]] Hlo] Hhi].
    destruct (vals !! "limits") as [[| | |l]|]; try done.
    destruct (l !! 0%nat) as [lo|] eqn:?; [|done].
    destruct (l !! 1%nat) as [hi|] eqn:?; [|done].
    by exists sm, tr, l, lo, hi.
  - intros (sm & tr & l & lo & hi & -> & -> & -> & -> & -> & ? & ?).
    by eauto.
Qed.

Lemma applyRegion_applicable rID vals RM :
  applicable vals →
  applyRegion rID vals RM = inr (<[rID := applied vals (region RM rID)]> RM).
Proof.
  intros (sm & tr & l & lo & hi & Hsm & Htr & Hl & Hlo & Hhi & Nlo & Nhi)
    %applicable_spec.
  unfold applyRegion, applied, limit, getitem, subscript.
  rewrite Hsm, Htr, Hl. unfold ret, bind. rewrite Hlo, Hhi.
  rewrite (gt0_number lo), (gt0_number hi) by done.
  unfold setStartModel, setModelTransStr_, setConstraintType, setZWeight,
    setModelControl, setLowerBound, setUpperBound.
  change (update ?f rID RM) with (<[rID := f (region RM rID)]> RM).
  rewrite update_insert.
  rewrite (update_opt (vals !! "cType")), (update_opt (vals !! "zWeights")),
    (update_opt (vals !! "modelControl")).
  rewrite (update_if (positive lo)), (update_if (positive hi)).
  f_equal.
  generalize (region RM rID), (vals !! "cType"), (vals !! "zWeights"),
    (vals !! "modelControl"), (positive lo), (positive hi).
  by intros [] [] [] [] [] [].
Qed.

Lemma subscript_number v i x :
  subscript v i = inr x → number x → ∃ l, v = PyList l ∧ l !! i = Some x.
Proof.
  destruct v as [| |s|l]; unfold subscript, ret, raise; try done.
  - destruct (String.get i s); [|done]. intros [= <-] Hn. destruct Hn.
  - destruct (l !! i) as [y|] eqn:E; [|done]. intros [= <-] _. by exists l.
Qed.

Lemma applyRegion_inr rID vals RM RM' :
  applyRegion rID vals RM = inr RM' → applicable vals.
Proof.
  intros Happ. apply applicable_spec. revert Happ.
  unfold applyRegion, getitem, bind, ret, raise.
  destruct (vals !! "startModel") as [sm|]; [|done].
  destruct (vals !! "trans") as [tr|]; [|done].
  destruct (vals !! "limits") as [lim|]; [|done].
  destruct (subscript lim 0) as [|lo] eqn:El0; [done|].
  destruct (gt0 lo) as [|blo] eqn:Hlo; [done|].
  destruct (subscript lim 1) as [|hi] eqn:El1; [done|].
  destruct (gt0 hi) as [|bhi] eqn:Hhi; [done|].
  intros _. apply gt0_inr in Hlo as [Nlo _]. apply gt0_inr in Hhi as [Nhi _].
  destruct (subscript_number _ _ _ El0 Nlo) as (l & -> & Hl0).
  destruct (subscript_number _ _ _ El1 Nhi) as (l' & [= <-] & Hl1).
  exists sm, tr, l, lo, hi. repeat split; assumption || reflexivity.
Qed.

Lemma lookup_appliedAll (props : gmap Z (gmap string PyVal)) RM rID :
  appliedAll props RM !! rID =
    match props !! rID with
    | Some vals => Some (applied vals (region RM rID))
    | None => RM !! rID
    end.
Proof.
  unfold appliedAll. rewrite lookup_union, map_lookup_imap.
  by destruct (props !! rID) as [vals|], (RM !! rID).
Qed.

Lemma region_insert_ne rID rID' (x : Region) RM :
  rID ≠ rID' → region (<[rID := x]> RM) rID' = region RM rID'.
Proof. intros Hne. unfold region. by rewrite lookup_insert_ne. Qed.

Lemma appliedAll_insert (props : gmap Z (gmap string PyVal)) RM rID vals :
  props !! rID = None →
  appliedAll props (<[rID := applied vals (region RM rID)]> RM) =
    appliedAll (<[rID := vals]> props) RM.
Proof.
  intros Hfresh. apply map_eq. intros r. rewrite !lookup_appliedAll.
  destruct (decide (rID = r)) as [<-|Hne].
  - by rewrite Hfresh, !lookup_insert_eq.
  - rewrite !lookup_insert_ne by done. by rewrite region_insert_ne.
Qed.

Lemma applyItems_applicable (items : list (Z * gmap string PyVal)) RM :
  NoDup items.*1 →
  Forall (fun item => applicable item.2) items →
  applyItems items RM = inr (appliedAll (list_to_map items) RM).
Proof.
  revert RM. induction items as [|[rID vals] items IH]; intros RM Hnd Hall.
  - simpl. unfold ret. f_equal. apply map_eq. intros r.
    by rewrite lookup_appliedAll, lookup_empty.
  - apply NoDup_cons in Hnd as [Hfresh Hnd].
    apply Forall_cons in Hall as [Hvals Hall]. simpl in *.
    rewrite applyRegion_applicable by done. unfold bind.
    rewrite IH by done. f_equal. apply appliedAll_insert.
    by apply not_elem_of_list_to_map_1.
Qed.

Lemma applyItems_inr (items : list (Z * gmap string PyVal)) RM RM' :
  applyItems items RM = inr RM' →
  Forall (fun item => applicable item.2) items.
Proof.
  revert RM. induction items as [|[rID vals] items IH]; intros RM; [done|].
  simpl. unfold bind.
  destruct (applyRegion rID vals RM) as [|RM1] eqn:E; [done|].
  intros Hrest. constructor; [by eapply applyRegion_inr|by eapply IH].
Qed.

(** [_applyRegionProperties] returns exactly on the caches whose
    records it can read, and then leaves every cached region with the
    hints of its record. *)
Lemma apply_applicable self :
  map_Forall (fun _ vals => applicable vals) (_regionProperties self) →
  _applyRegionProperties self =
    inr (mkModelling (_regionProperties self) (_transModel self)
           (appliedAll (_regionProperties self) (RM self))).
Proof.
  intros Hall. unfold _applyRegionProperties.
  rewrite applyItems_applicable.
  - unfold bind, ret. by rewrite list_to_map_to_list.
  - apply NoDup_fst_map_to_list.
  - apply map_Forall_to_list in Hall.
    eapply Forall_impl; [exact Hall|]. by intros [].
Qed.

Lemma apply_inr self self' :
  _applyRegionProperties self = inr self' →
  map_Forall (fun _ vals => applicable vals) (_regionProperties self).
Proof.
  unfold _applyRegionProperties, bind.
  destruct (applyItems _ _) as [|RM'] eqn:E; [done|]. intros _.
  apply applyItems_inr in E. apply map_Forall_to_list.
  eapply Forall_impl; [exact E|]. by intros [].
Qed.

Lemma wf_applicable (props : gmap Z (gmap string PyVal)) :
  wf_cache props → map_Forall (fun _ vals => applicable vals) props.
Proof.
  intros Hwf. eapply map_Forall_impl; [exact Hwf|].
  intros r vals. unfold wf_record. rewrite !andb_True. tauto.
Qed.

Lemma applied_idem vals old : applied vals (applied vals old) = applied vals old.
Proof.
  unfold applied; simpl.
  generalize (vals !! "cType"), (vals !! "zWeights"), (vals !! "modelControl"),
    (limit vals 0), (limit vals 1).
  intros [] [] [] [lo|] [hi|]; try done.
  all: by repeat (destruct (positive _)).
Qed.

Lemma region_appliedAll (props : gmap Z (gmap string PyVal)) RM rID vals :
  props !! rID = Some vals →
  region (appliedAll props RM) rID = applied vals (region RM rID).
Proof. intros E. unfold region at 1. by rewrite lookup_appliedAll, E. Qed.

Lemma appliedAll_idem (props : gmap Z (gmap string PyVal)) RM :
  appliedAll props (appliedAll props RM) = appliedAll props RM.
Proof.
  apply map_eq. intros r. rewrite lookup_appliedAll.
  destruct (props !! r) as [vals|] eqn:E.
  - rewrite (region_appliedAll _ _ _ vals), applied_idem by done.
    by rewrite lookup_appliedAll, E.
  - by rewrite lookup_appliedAll, E.
Qed.

Lemma hints_set_applied vals old : wf_record vals → hints_set vals (applied vals old).
Proof.
  unfold wf_record, applicable. rewrite !andb_True, !bool_decide_spec.
  intros (((((([sm Hsm] & [tr Htr]) & _) & _) & [ct Hct]) & [zw Hzw]) & [mc Hmc]).
  exists sm, tr, ct, zw, mc. unfold applied; simpl.
  by rewrite Hsm, Htr, Hct, Hzw, Hmc.
Qed.

Lemma positive_int z : positive (PyInt z) ↔ 0 < z.
Proof. simpl. rewrite Is_true_true. apply Z.ltb_lt. Qed.

Lemma positive_float q : positive (PyFloat q) ↔ (0 < q)%Q.
Proof.
  simpl. rewrite Is_true_true, negb_true_iff, <- not_true_iff_false.
  rewrite Qle_bool_iff. split; [apply Qnot_le_lt|apply Qlt_not_le].
Qed.

(** The state every successful application ends in. *)
Lemma apply_again self :
  map_Forall (fun _ vals => applicable vals) (_regionProperties self) →
  ∃ self',
    _applyRegionProperties self = inr self' ∧
    _applyRegionProperties self' = inr self' ∧
    _regionProperties self' = _regionProperties self ∧
    _transModel self' = _transModel self ∧
    RM self' = appliedAll (_regionProperties self) (RM self).
Proof.
  intros Hall. eexists. split; [by apply apply_applicable|].
  split; [|done]. rewrite apply_applicable by done. simpl.
  by rewrite appliedAll_idem.
Qed.

Lemma regionManager_spec self :
  map_Forall (fun _ vals => applicable vals) (_regionProperties self) →
  ∃ self',
    regionManager self = inr (self', RM self') ∧
    _applyRegionProperties self = inr self'.
Proof.
  intros Hall. destruct (apply_again self Hall) as (self' & E & _).
  exists self'. unfold regionManager. by rewrite E.
Qed.

Lemma transModel_spec `{NativeRM} self :
  map_Forall (fun _ vals => applicable vals) (_regionProperties self) →
  ∃ self',
    transModel self =
      inr (self', if haveLocalTrans (RM self') then rmTransModel (RM self')
                  else _transModel self) ∧
    _applyRegionProperties self = inr self'.
Proof.
  intros Hall.
  destruct (apply_again self Hall) as (self' & E & E' & _ & Htm & _).
  exists self'. split; [|done]. unfold transModel, regionManager.
  rewrite E. unfold bind at 1. rewrite E'. unfold bind, ret; simpl.
  destruct (haveLocalTrans (RM self')); [|by rewrite Htm].
  by rewrite E'.
Qed.

Lemma transModel_inr `{NativeRM} self self' tm :
  transModel self = inr (self', tm) →
  map_Forall (fun _ vals => applicable vals) (_regionProperties self).
Proof.
  unfold transModel, bind.
  destruct (_applyRegionProperties self) as [|self1] eqn:E; [done|].
  intros _. by eapply apply_inr.
Qed.

Lemma applied_cache self self' :
  wf_cache (_regionProperties self) →
  _applyRegionProperties self = inr self' →
  ∀ rID vals,
    _regionProperties self !! rID = Some vals →
    hints_set vals (region (RM self') rID).
Proof.
  intros Hwf E rID vals Hvals.
  rewrite apply_applicable in E by by apply wf_applicable.
  injection E as <-. simpl.
  rewrite (region_appliedAll _ _ _ vals) by done.
  apply hints_set_applied. by eapply Hwf.
Qed.

(** C4. [regionManager()] and the getter of [transModel] first apply
    every record of the cache to the region manager, so that what they
    return comes from a region manager in which every cached region has
    the start model, transformation, constraint type, z-weight and
    model control of its record; [setRegionProperties] itself leaves the
    region manager alone. *)
Theorem regionManager_applies_cache `{NativeRM} self :
  wf_cache (_regionProperties self) →
  (∃ self',
      regionManager self = inr (self', RM self') ∧
      ∀ rID vals,
        _regionProperties self !! rID = Some vals →
        hints_set vals (region (RM self') rID)) ∧
  (∃ self',
      transModel self =
        inr (self', if haveLocalTrans (RM self') then rmTransModel (RM self')
                    else _transModel self) ∧
      ∀ rID vals,
        _regionProperties self !! rID = Some vals →
        hints_set vals (region (RM self') rID)) ∧
  (∀ c, RM (call c self) = RM self).
Proof.
  intros Hwf. pose proof (wf_applicable _ Hwf) as Hall. repeat split.
  - destruct (regionManager_spec self Hall) as (self' & E & Happ).
    exists self'. split; [done|]. by apply applied_cache.
  - destruct (transModel_spec self Hall) as (self' & E & Happ).
    exists self'. split; [done|]. by apply applied_cache.
Qed.

(** C7. Applying the cache never changes the cache: after
    [_applyRegionProperties], [regionManager()] or a read of
    [transModel] the object holds the records it held before, and
    applying again leaves the region manager as the first application
    left it. *)
Theorem applyRegionProperties_keeps_cache `{NativeRM} self self' :
  (_applyRegionProperties self = inr self' →
     _regionProperties self' = _regionProperties self ∧
     _applyRegionProperties self' = inr self') ∧
  (∀ rm, regionManager self = inr (self', rm) →
     _regionProperties self' = _regionProperties self) ∧
  (∀ tm, transModel self = inr (self', tm) →
     _regionProperties self' = _regionProperties self).
Proof.
  split; [|split].
  - intros E. pose proof (apply_inr _ _ E) as Hall.
    destruct (apply_again self Hall) as (s & Es & Es' & Hc & _).
    split; congruence.
  - intros rm E. unfold regionManager, bind in E.
    destruct (_applyRegionProperties self) as [|s] eqn:Es; [done|].
    pose proof (apply_inr _ _ Es) as Hall.
    destruct (apply_again self Hall) as (s' & Es' & _ & Hc & _).
    unfold ret in E. congruence.
  - intros tm E. pose proof (transModel_inr _ _ _ E) as Hall.
    destruct (transModel_spec self Hall) as (s & Es & Happ).
    destruct (apply_again self Hall) as (s' & Es' & _ & Hc & _). congruence.
Qed.

(** C10. When the cache is applied, a region's lower bound is set only
    if [limits[0]] is strictly positive and its upper bound only if
    [limits[1]] is; otherwise the bound of the region manager stays as it
    was.  Start model, transformation, constraint type, z-weight and
    model control are set in every case. *)
Theorem applyRegionProperties_bounds self :
  wf_cache (_regionProperties self) →
  ∃ self',
    _applyRegionProperties self = inr self' ∧
    ∀ rID vals,
      _regionProperties self !! rID = Some vals →
      ∃ lo hi,
        limit vals 0 = Some lo ∧ limit vals 1 = Some hi ∧
        lowerBound (region (RM self') rID) =
          (if positive lo then Some lo
           else lowerBound (region (RM self) rID)) ∧
        upperBound (region (RM self') rID) =
          (if positive hi then Some hi
           else upperBound (region (RM self) rID)) ∧
        hints_set vals (region (RM self') rID).
Proof.
  intros Hwf. pose proof (wf_applicable _ Hwf) as Hall.
  destruct (apply_again self Hall) as (self' & E & _ & _ & _ & HRM).
  exists self'. split; [done|]. intros rID vals Hvals.
  pose proof (Hall rID vals Hvals) as Happ.
  apply applicable_spec in Happ
    as (sm & tr & l & lo & hi & _ & _ & Hl & Hlo & Hhi & _).
  assert (limit vals 0 = Some lo) as H0 by (unfold limit; by rewrite Hl).
  assert (limit vals 1 = Some hi) as H1 by (unfold limit; by rewrite Hl).
  exists lo, hi. rewrite HRM, (region_appliedAll _ _ _ vals) by done.
  repeat split; try done.
  - unfold applied; simpl. by rewrite H0.
  - unfold applied; simpl. by rewrite H1.
  - apply hints_set_applied. by eapply Hwf.
Qed.

End Apply.

(** * Properties of the per-sounding bookkeeping *)

Section Soundings.

Implicit Types (self : LCModelling) (par : list Q).
Implicit Types (dataVals : list (list Q)) (nLayers : Z).

(** Loops over [range(n)] by invariant. *)
Lemma for_seq {S : Type} (P : nat → S → Prop) (body : nat → S → Res S)
    (a n : nat) (s : S) :
  P a s →
  (∀ i s, (a ≤ i < a + n)%nat → P i s →
          ∃ s', body i s = inr s' ∧ P (Datatypes.S i) s') →
  ∃ s', for_ (seq a n) body s = inr s' ∧ P (a + n)%nat s'.
Proof.
  revert a s. induction n as [|n IH]; intros a s Ha Hstep.
  - exists s. by rewrite Nat.add_0_r.
  - destruct (Hstep a s ltac:(lia) Ha) as (s1 & E1 & H1).
    destruct (IH (Datatypes.S a) s1 H1) as (s' & E' & H').
    { intros i t Hi. apply Hstep. lia. }
    exists s'. simpl. rewrite E1. unfold bind.
    split; [done|]. by replace (a + Datatypes.S n)%nat with (Datatypes.S a + n)%nat by lia.
Qed.

Lemma for_range {S : Type} (P : nat → S → Prop) (body : nat → S → Res S)
    (n : Z) (s : S) :
  P 0%nat s →
  (∀ i s, (i < Z.to_nat n)%nat → P i s →
          ∃ s', body i s = inr s' ∧ P (Datatypes.S i) s') →
  ∃ s', for_ (range n) body s = inr s' ∧ P (Z.to_nat n) s'.
Proof.
  intros H0 Hstep. apply (for_seq P body 0 (Z.to_nat n) s H0).
  intros i t Hi. apply Hstep. lia.
Qed.

Lemma lookup_rows {A : Type} (n p i : nat) (l : list A) :
  (i < n)%nat → rows n p l !! i = Some (chunk p i l).
Proof.
  revert i l. induction n as [|n IH]; intros i l Hi; [lia|].
  destruct i as [|i]; simpl.
  - done.
  - rewrite IH by lia. unfold chunk. by rewrite drop_drop.
Qed.

Lemma reshape_counts {A : Type} (n p : Z) (l : list A) :
  0 <= n → 0 <= p → Z.of_nat (length l) = n * p →
  reshape n p l = inr (rows (Z.to_nat n) (Z.to_nat p) l).
Proof.
  intros Hn Hp Hsize. unfold reshape.
  destruct (Z.ltb_spec n 0); [lia|]. destruct (Z.ltb_spec p 0); [lia|].
  simpl. by rewrite (proj2 (Z.eqb_eq _ _) Hsize).
Qed.

(** C2. For a parameter vector of length [_nSoundings *
    _parPerSounding], [response] returns the concatenation, in sounding
    order, of the response of the [i]-th per-sounding operator to the
    [i]-th consecutive chunk of [_parPerSounding] entries. *)
Theorem response_stitches `{NativeFop} self par :
  ready self →
  Z.of_nat (length par) = _nSoundings self * _parPerSounding self →
  response par self = inr (stitched self par).
Proof.
  intros (Hn & Hp & Hfops) Hsize. unfold response.
  rewrite reshape_counts by done. unfold bind at 1.
  set (n := Z.to_nat (_nSoundings self)) in *.
  set (p := Z.to_nat (_parPerSounding self)).
  destruct (for_range
    (fun i resp =>
       resp = concat (imap (fun k f => fopResponse f (chunk p k par))
                        (take i (_fops1D self))))
    (fun i resp =>
       do f <- index (_fops1D self) i;
       do m <- index (rows n p par) i;
       ret (resp ++ fopResponse f m))
    (_nSoundings self) []) as (resp & E & Hresp).
  - done.
  - intros i resp Hi ->. fold n in Hi.
    destruct (lookup_lt_is_Some_2 (_fops1D self) i) as [f Hf]; [lia|].
    unfold index. rewrite Hf, lookup_rows by done.
    eexists. split; [done|].
    rewrite (take_S_r _ _ f), imap_app, concat_app by done. simpl.
    rewrite length_take_le by lia. by rewrite Nat.add_0_r, app_nil_r.
  - rewrite E. by rewrite Hresp.
Qed.

(** C6. For a parameter vector of length [_nSoundings *
    _parPerSounding], [createJacobian] calls the [createJacobian] of
    the [i]-th per-sounding operator on the [i]-th row of the reshaped
    vector, for every sounding, and does nothing else: the other
    operators and every other attribute, the block matrix among them,
    stay as they were. *)
Theorem createJacobian_delegates self par :
  ready self →
  Z.of_nat (length par) = _nSoundings self * _parPerSounding self →
  ∃ self',
    createJacobian par self = inr self' ∧
    (∀ i f,
        (i < Z.to_nat (_nSoundings self))%nat →
        _fops1D self !! i = Some f →
        _fops1D self' !! i =
          Some (fopCreateJacobian
                  (chunk (Z.to_nat (_parPerSounding self)) i par) f)) ∧
    (∀ i,
        (Z.to_nat (_nSoundings self) ≤ i)%nat →
        _fops1D self' !! i = _fops1D self !! i) ∧
    (∀ m f, createJacobianCalls (fopCreateJacobian m f) =
              createJacobianCalls f ++ [m]) ∧
    _jac self' = _jac self ∧ jacobian self' = jacobian self ∧
    _nSoundings self' = _nSoundings self ∧
    _parPerSounding self' = _parPerSounding self ∧
    _mesh self' = _mesh self ∧ mesh self' = mesh self ∧
    fresh self' = fresh self.
Proof.
  intros (Hn & Hp & Hfops) Hsize. unfold createJacobian.
  rewrite reshape_counts by done. unfold bind at 1.
  set (n := Z.to_nat (_nSoundings self)) in *.
  set (p := Z.to_nat (_parPerSounding self)).
  destruct (for_range
    (fun i fops =>
       length fops = length (_fops1D self) ∧
       ∀ k, fops !! k =
            if decide (k < i)%nat
            then fopCreateJacobian (chunk p k par) <$> _fops1D self !! k
            else _fops1D self !! k)
    (fun i fops =>
       do f <- index fops i;
       do m <- index (rows n p par) i;
       ret (<[i := fopCreateJacobian m f]> fops))
    (_nSoundings self) (_fops1D self)) as (fops & E & Hlen & Hfops').
  - split; [done|]. intros k. by case_decide; [lia|].
  - intros i fops Hi [Hlen Hk]. fold n in Hi.
    destruct (lookup_lt_is_Some_2 (_fops1D self) i) as [f Hf]; [lia|].
    unfold index. rewrite Hk, decide_False, Hf, lookup_rows by lia.
    eexists. split; [done|]. split; [by rewrite length_insert|].
    intros k. destruct (decide (k = i)) as [->|Hne].
    + rewrite list_lookup_insert_eq by lia.
      rewrite decide_True by lia. by rewrite Hf.
    + rewrite list_lookup_insert_ne by done. rewrite Hk.
      repeat case_decide; done || lia.
  - rewrite E. eexists. split; [done|]. simpl. fold n in Hfops'.
    repeat split; try done.
    + intros i f Hi Hf. by rewrite Hfops', decide_True, Hf.
    + intros i Hi. by rewrite Hfops', decide_False by lia.
Qed.

Lemma createParametrization_counts nSoundings nLayers self :
  0 <= nSoundings → 1 <= nLayers →
  ∃ self',
    createParametrization nSoundings nLayers 1 self = inr self' ∧
    _nSoundings self' = nSoundings ∧
    _parPerSounding self' = 2 * nLayers - 1 ∧
    _fops1D self' = _fops1D self ∧ fresh self' = fresh self ∧
    _jac self' = _jac self ∧ verbose self' = verbose self ∧
    _fopTemplate self' = _fopTemplate self.
Proof.
  intros Hn Hl. unfold createParametrization, ones.
  destruct (Z.ltb_spec (((1 + 1) * nLayers - 1) * nSoundings) 0); [nia|].
  unfold bind, ret, setMesh; simpl.
  eexists. split; [done|]. destruct (fop self); simpl; repeat split; lia.
Qed.

Lemma rowOffset_S dataVals i d :
  dataVals !! i = Some d →
  rowOffset dataVals (S i) = rowOffset dataVals i + Z.of_nat (length d).
Proof.
  intros Hd. unfold rowOffset.
  rewrite (take_S_r _ _ d), sum_list_with_app by done. simpl. lia.
Qed.

(** What the loop of [initJacobian] has built after [i] soundings. *)
Lemma initJacobian_loop self dataVals B0 :
  ∃ st,
    for_ (range (Z.of_nat (length dataVals))) (initSounding self dataVals)
      (mkInitLoop (_fops1D self) (fresh self) B0 0) = inr st ∧
    loopFops st =
      _fops1D self ++
        ((fun i => mkFop (fopType (_fopTemplate self)) (fresh self + i)
                     (verbose self) (Some (_parPerSounding self)) None [])
           <$> seq 0 (length dataVals)) ∧
    loopFresh st = (fresh self + length dataVals)%nat ∧
    BlockMatrix.matrices (loopJac st) =
      BlockMatrix.matrices B0 ++
        ((fun i => (fresh self + i)%nat) <$> seq 0 (length dataVals)) ∧
    BlockMatrix.entries (loopJac st) =
      BlockMatrix.entries B0 ++
        ((fun i => ((length (BlockMatrix.matrices B0) + i)%nat,
                    rowOffset dataVals i,
                    _parPerSounding self * Z.of_nat i))
           <$> seq 0 (length dataVals)) ∧
    nData st = rowOffset dataVals (length dataVals).
Proof.
  destruct (for_range
    (fun i st =>
       loopFops st =
         _fops1D self ++
           ((fun i => mkFop (fopType (_fopTemplate self)) (fresh self + i)
                        (verbose self) (Some (_parPerSounding self)) None [])
              <$> seq 0 i) ∧
       loopFresh st = (fresh self + i)%nat ∧
       BlockMatrix.matrices (loopJac st) =
         BlockMatrix.matrices B0 ++
           ((fun i => (fresh self + i)%nat) <$> seq 0 i) ∧
       BlockMatrix.entries (loopJac st) =
         BlockMatrix.entries B0 ++
           ((fun i => ((length (BlockMatrix.matrices B0) + i)%nat,
                       rowOffset dataVals i,
                       _parPerSounding self * Z.of_nat i))
              <$> seq 0 i) ∧
       nData st = rowOffset dataVals i)
    (initSounding self dataVals)
    (Z.of_nat (length dataVals))
    (mkInitLoop (_fops1D self) (fresh self) B0 0)) as (st & E & Hst).
  - simpl. by rewrite !app_nil_r, Nat.add_0_r.
  - intros i st Hi (Hf & Hfr & Hm & He & Hd). rewrite Nat2Z.id in Hi.
    destruct (lookup_lt_is_Some_2 dataVals i) as [d Hdi]; [lia|].
    rewrite !seq_S, !fmap_app, !app_assoc.
    unfold initSounding, index. rewrite Hdi. unfold bind, ret; simpl.
    eexists. split; [done|]. simpl.
    rewrite Hf, Hfr, Hm, He, Hd, length_app, length_fmap, length_seq.
    repeat split; try done.
    by rewrite (rowOffset_S _ _ d).
  - rewrite Nat2Z.id in Hst. by exists st.
Qed.

(** The state [initJacobian] leaves. *)
Lemma initJacobian_spec self dataVals nLayers :
  1 <= nLayers →
  ∃ self' B,
    initJacobian dataVals nLayers self = inr self' ∧
    _jac self' = Some B ∧ jacobian self' = BlockJacobian ∧
    _nSoundings self' = Z.of_nat (length dataVals) ∧
    _parPerSounding self' = 2 * nLayers - 1 ∧
    _fops1D self' =
      _fops1D self ++ (newFop self nLayers <$> seq 0 (length dataVals)) ∧
    fops1D self' = Some [] ∧
    BlockMatrix.matrices B =
      (fun i => (fresh self + i)%nat) <$> seq 0 (length dataVals) ∧
    BlockMatrix.entries B =
      (fun i => (i, rowOffset dataVals i, (2 * nLayers - 1) * Z.of_nat i))
        <$> seq 0 (length dataVals).
Proof.
  intros Hl.
  destruct (createParametrization_counts (Z.of_nat (length dataVals))
              nLayers self ltac:(lia) Hl)
    as (self1 & E1 & Hn & Hp & Hf & Hfr & Hj & Hv & Ht).
  destruct (initJacobian_loop self1 dataVals BlockMatrix.new)
    as (st & E & Hfops & _ & Hm & He & _).
  unfold initJacobian. rewrite E1. unfold bind at 1.
  replace (match _jac self1 with
           | Some B => BlockMatrix.clear B
           | None => BlockMatrix.new
           end) with BlockMatrix.new by by destruct (_jac self1).
  rewrite E. unfold bind, ret. do 2 eexists. split; [done|]. simpl.
  rewrite Hfops, Hm, He, Hn, Hp, Hf, Hfr, Hv, Ht.
  by repeat split.
Qed.

(** C3. [initJacobian] registers the Jacobian of the operator it
    creates for the [i]-th sounding in the block matrix, at the row
    offset that is the sum of the lengths of the data of the soundings
    before it and at the column offset [_parPerSounding * i], and
    installs the block matrix as the Jacobian. *)
Theorem initJacobian_registers_blocks self dataVals nLayers :
  1 <= nLayers →
  ∃ self' B,
    initJacobian dataVals nLayers self = inr self' ∧
    _jac self' = Some B ∧ jacobian self' = BlockJacobian ∧
    _parPerSounding self' = 2 * nLayers - 1 ∧
    length (BlockMatrix.matrices B) = length dataVals ∧
    length (BlockMatrix.entries B) = length dataVals ∧
    ∀ i,
      (i < length dataVals)%nat →
      ∃ f,
        _fops1D self' !! (length (_fops1D self) + i)%nat = Some f ∧
        f = newFop self nLayers i ∧
        BlockMatrix.matrices B !! i = Some (fopId f) ∧
        BlockMatrix.entries B !! i =
          Some (i, rowOffset dataVals i,
                _parPerSounding self' * Z.of_nat i).
Proof.
  intros Hl.
  destruct (initJacobian_spec self dataVals nLayers Hl)
    as (self' & B & E & HB & HJ & _ & Hp & Hf & _ & Hm & He).
  exists self', B. rewrite Hm, He, Hf, !length_fmap, !length_seq.
  repeat split; try done.
  intros i Hi. exists (newFop self nLayers i).
  rewrite lookup_app_r by lia.
  replace (length (_fops1D self) + i - length (_fops1D self))%nat with i
    by lia.
  rewrite !list_lookup_fmap, !lookup_seq_lt, Hp by done.
  by repeat split.
Qed.

Lemma initJacobian_ready self dataVals nLayers self' :
  1 <= nLayers →
  initJacobian dataVals nLayers self = inr self' → ready self'.
Proof.
  intros Hl E.
  destruct (initJacobian_spec self dataVals nLayers Hl)
    as (s & B & Es & _ & _ & Hn & Hp & Hf & _).
  rewrite E in Es. injection Es as <-. unfold ready.
  rewrite Hn, Hp, Hf, length_app, length_fmap, length_seq. lia.
Qed.

(** [initJacobian] only ever appends to [_fops1D]. *)
Lemma initJacobian_appends self dataVals nLayers self' :
  1 <= nLayers →
  initJacobian dataVals nLayers self = inr self' →
  length (_fops1D self') = (length (_fops1D self) + length dataVals)%nat.
Proof.
  intros Hl E.
  destruct (initJacobian_spec self dataVals nLayers Hl)
    as (s & B & Es & _ & _ & _ & _ & Hf & _).
  rewrite E in Es. injection Es as <-.
  by rewrite Hf, length_app, length_fmap, length_seq.
Qed.

(** C5. After a first [initJacobian] on a fresh object [_fops1D] holds
    one operator per sounding; a second call leaves the operators of the
    first in place and appends its own, because the list it resets is
    [fops1D] and not [_fops1D]: for one sounding, [_fops1D] then holds
    two operators, and the first of them, the one [response] and
    [createJacobian] use, is not the one whose Jacobian the block matrix
    refers to. *)
Theorem initJacobian_twice_keeps_stale_operators :
  ∃ self1 self2 B,
    initJacobian [[1%Q]] 2 exampleLC = inr self1 ∧
    initJacobian [[1%Q]] 2 self1 = inr self2 ∧
    length (_fops1D self1) = 1%nat ∧
    length (_fops1D self2) = 2%nat ∧
    fops1D self2 = Some [] ∧
    _nSoundings self2 = 1 ∧
    _jac self2 = Some B ∧
    fopId <$> _fops1D self2 = [1%nat; 2%nat] ∧
    BlockMatrix.matrices B = [2%nat].
Proof. do 3 eexists. by vm_compute. Qed.

End Soundings.

(** * The theorems at concrete objects *)

Example exampleModelling_cache :
  stored exampleModelling 1 "startModel" = Some (PyInt 3) ∧
  stored exampleModelling 1 "trans" = Some (PyStr "log") ∧
  stored exampleModelling 1 "cType" = Some (PyInt 1) ∧
  stored exampleModelling 2 "cType" = Some (PyInt 0) ∧
  stored exampleModelling 2 "trans" = Some (PyStr "Log") ∧
  stored exampleModelling 3 "trans" = None.
Proof. by vm_compute. Qed.

Lemma wf_exampleModelling : wf_cache (_regionProperties exampleModelling).
Proof.
  unfold wf_cache. apply (bool_decide_unpack _). by vm_compute.
Defined.

Lemma setRegionProperties_last_write_wins_witness :
  lastPassed 1 "startModel" exampleCalls = Some (PyInt 3) ∧
  stored (calls exampleCalls (Modelling__init__ ∅)) 1 "startModel"
    = Some (PyInt 3) ∧
  lastPassed 1 "zWeights" exampleCalls = None ∧
  stored (calls exampleCalls (Modelling__init__ ∅)) 1 "zWeights"
    = unwritten (Modelling__init__ ∅) 1 "zWeights" exampleCalls ∧
  passed exampleCall "startModel" = None ∧
  is_Some (_regionProperties exampleModelling !! 1) ∧
  stored (call exampleCall exampleModelling) 1 "startModel"
    = stored exampleModelling 1 "startModel".
Proof.
  assert (lastPassed 1 "startModel" exampleCalls = Some (PyInt 3)) as H1
    by (vm_compute; reflexivity).
  assert (lastPassed 1 "zWeights" exampleCalls = None) as H1'
    by (vm_compute; reflexivity).
  assert (passed exampleCall "startModel" = None) as H2
    by (vm_compute; reflexivity).
  assert (is_Some (_regionProperties exampleModelling !! 1)) as H3
    by (apply (bool_decide_unpack _); vm_compute; exact I).
  pose proof (setRegionProperties_last_write_wins
                (Modelling__init__ ∅) 1 "startModel") as (Hlast & _ & _).
  pose proof (setRegionProperties_last_write_wins
                (Modelling__init__ ∅) 1 "zWeights") as (_ & Hnone & _).
  pose proof (setRegionProperties_last_write_wins
                exampleModelling 1 "startModel") as (_ & _ & Hkeep).
  exact (conj H1 (conj (Hlast exampleCalls _ H1)
          (conj H1' (conj (Hnone exampleCalls H1')
            (conj H2 (conj H3 (Hkeep exampleCall H2 H3))))))).
Defined.

Lemma setRegionProperties_new_region_witness :
  _regionProperties exampleModelling !! c_region exampleNewCall = None ∧
  ∃ vals,
    _regionProperties (call exampleNewCall exampleModelling)
      !! c_region exampleNewCall = Some vals ∧
    vals !! "limits" = Some (PyList [PyInt 1; PyInt 1000]) ∧
    vals !! "trans" = Some (PyStr "Log").
Proof.
  assert (_regionProperties exampleModelling !! c_region exampleNewCall = None)
    as Hnew by (vm_compute; reflexivity).
  split; [exact Hnew|].
  destruct (proj1 (setRegionProperties_new_region
                     exampleModelling exampleNewCall Hnew))
    as (vals & Hvals & Hkeys).
  exists vals. split; [exact Hvals|].
  split; rewrite Hkeys; vm_compute; reflexivity.
Defined.

Lemma regionManager_applies_cache_witness :
  wf_cache (_regionProperties exampleModelling) ∧
  ∃ self',
    regionManager exampleModelling = inr (self', RM self') ∧
    ∀ rID vals,
      _regionProperties exampleModelling !! rID = Some vals →
      hints_set vals (RegionManager.region (RM self') rID).
Proof.
  assert (wf_cache (_regionProperties exampleModelling)) as Hwf
    by (unfold wf_cache; apply (bool_decide_unpack _); vm_compute; exact I).
  split; [exact Hwf|].
  exact (proj1 (@regionManager_applies_cache plainRM exampleModelling Hwf)).
Defined.

Lemma applyRegionProperties_bounds_witness :
  wf_cache (_regionProperties exampleModelling) ∧
  ∃ self',
    _applyRegionProperties exampleModelling = inr self' ∧
    ∀ rID vals,
      _regionProperties exampleModelling !! rID = Some vals →
      ∃ lo hi,
        limit vals 0 = Some lo ∧ limit vals 1 = Some hi ∧
        RegionManager.lowerBound (RegionManager.region (RM self') rID) =
          (if positive lo then Some lo
           else RegionManager.lowerBound
                  (RegionManager.region (RM exampleModelling) rID)) ∧
        RegionManager.upperBound (RegionManager.region (RM self') rID) =
          (if positive hi then Some hi
           else RegionManager.upperBound
                  (RegionManager.region (RM exampleModelling) rID)) ∧
        hints_set vals (RegionManager.region (RM self') rID).
Proof.
  assert (wf_cache (_regionProperties exampleModelling)) as Hwf
    by (unfold wf_cache; apply (bool_decide_unpack _); vm_compute; exact I).
  split; [exact Hwf|].
  exact (applyRegionProperties_bounds exampleModelling Hwf).
Defined.

(** The example object applied: region 1 gets its lower bound, its upper
    bound and both bounds of region 2 stay unset. *)
Example exampleApplied_bounds :
  _applyRegionProperties exampleModelling = inr exampleApplied ∧
  RegionManager.lowerBound (RegionManager.region (RM exampleApplied) 1)
    = Some (PyFloat 0.5) ∧
  RegionManager.upperBound (RegionManager.region (RM exampleApplied) 1) = None ∧
  RegionManager.lowerBound (RegionManager.region (RM exampleApplied) 2) = None ∧
  RegionManager.startModel (RegionManager.region (RM exampleApplied) 2)
    = Some (PyInt 7).
Proof.
  split; [|by vm_compute].
  apply apply_applicable, wf_applicable, wf_exampleModelling.
Qed.

Lemma applyRegionProperties_keeps_cache_witness :
  _applyRegionProperties exampleModelling = inr exampleApplied ∧
  regionManager exampleModelling = inr (exampleApplied, RM exampleApplied) ∧
  @transModel plainRM exampleModelling = inr (exampleApplied, RTransLog) ∧
  _regionProperties exampleApplied = _regionProperties exampleModelling ∧
  _applyRegionProperties exampleApplied = inr exampleApplied.
Proof.
  assert (_applyRegionProperties exampleModelling = inr exampleApplied) as E
    by (vm_compute; reflexivity).
  assert (regionManager exampleModelling
          = inr (exampleApplied, RM exampleApplied)) as Erm
    by (vm_compute; reflexivity).
  assert (@transModel plainRM exampleModelling = inr (exampleApplied, RTransLog))
    as Etm by (vm_compute; reflexivity).
  pose proof (@applyRegionProperties_keeps_cache plainRM
                exampleModelling exampleApplied) as (Happly & Hrm & Htm).
  pose proof (Hrm _ Erm) as Hkept. pose proof (Htm _ Etm) as Hkept'.
  split; [exact E|]. split; [exact Erm|]. split; [exact Etm|].
  exact (Happly E).
Defined.

Example exampleLC1_state :
  initJacobian exampleData 2 exampleLC = inr exampleLC1 ∧
  _nSoundings exampleLC1 = 2 ∧ _parPerSounding exampleLC1 = 3 ∧
  fopId <$> _fops1D exampleLC1 = [1%nat; 2%nat] ∧
  (BlockMatrix.entries <$> _jac exampleLC1)
    = Some [(0%nat, 0, 0); (1%nat, 2, 3)] ∧
  @response taggingFop examplePar exampleLC1
    = inr [1%Q; 1%Q; 2%Q; 3%Q; 2%Q; 4%Q; 5%Q; 6%Q].
Proof. by vm_compute. Qed.

Lemma response_stitches_witness :
  ready exampleLC1 ∧
  Z.of_nat (length examplePar)
    = _nSoundings exampleLC1 * _parPerSounding exampleLC1 ∧
  @response taggingFop examplePar exampleLC1
    = inr (@stitched taggingFop exampleLC1 examplePar).
Proof.
  assert (ready exampleLC1) as Hready
    by (unfold ready; vm_compute; repeat split; (discriminate || lia)).
  assert (Z.of_nat (length examplePar)
          = _nSoundings exampleLC1 * _parPerSounding exampleLC1) as Hsize
    by (vm_compute; reflexivity).
  split; [exact Hready|]. split; [exact Hsize|].
  exact (@response_stitches taggingFop exampleLC1 examplePar Hready Hsize).
Defined.

Lemma createJacobian_delegates_witness :
  ready exampleLC1 ∧
  Z.of_nat (length examplePar)
    = _nSoundings exampleLC1 * _parPerSounding exampleLC1 ∧
  ∃ self',
    createJacobian examplePar exampleLC1 = inr self' ∧
    _jac self' = _jac exampleLC1 ∧
    (createJacobianCalls <$> _fops1D self')
      = [[[1%Q; 2%Q; 3%Q]]; [[4%Q; 5%Q; 6%Q]]].
Proof.
  assert (ready exampleLC1) as Hready
    by (unfold ready; vm_compute; repeat split; (discriminate || lia)).
  assert (Z.of_nat (length examplePar)
          = _nSoundings exampleLC1 * _parPerSounding exampleLC1) as Hsize
    by (vm_compute; reflexivity).
  split; [exact Hready|]. split; [exact Hsize|].
  destruct (createJacobian_delegates exampleLC1 examplePar Hready Hsize)
    as (self' & E & _ & _ & _ & Hjac & _).
  exists self'. split; [exact E|]. split; [exact Hjac|].
  vm_compute in E. injection E as <-. reflexivity.
Defined.

Lemma initJacobian_registers_blocks_witness :
  1 <= 2 ∧
  ∃ self' B,
    initJacobian exampleData 2 exampleLC = inr self' ∧
    _jac self' = Some B ∧ jacobian self' = BlockJacobian ∧
    BlockMatrix.matrices B !! 1%nat = Some 2%nat ∧
    BlockMatrix.entries B !! 1%nat = Some (1%nat, 2, 3).
Proof.
  assert (1 <= 2) as Hl by lia.
  split; [exact Hl|].
  destruct (initJacobian_registers_blocks exampleLC exampleData 2 Hl)
    as (self' & B & E & HB & HJ & Hp & _ & _ & Hall).
  destruct (Hall 1%nat ltac:(simpl; lia)) as (f & _ & -> & Hm & He).
  exists self', B. rewrite Hm, He, Hp.
  repeat split; try assumption; reflexivity.
Defined.

(** * More on the region-property cache *)

Section CacheMore.

Import RegionManager.

Implicit Types (self : Modelling) (c : Call) (cs : list Call).
Implicit Types (vals : gmap string PyVal) (RM : gmap Z Region).

Lemma modelling_eq self self' :
  _regionProperties self = _regionProperties self' →
  _transModel self = _transModel self' →
  RM self = RM self' →
  self = self'.
Proof. destruct self, self'; simpl; by intros -> -> ->. Qed.

Lemma transModel_call c self : _transModel (call c self) = _transModel self.
Proof. done. Qed.

Lemma RM_call c self : RM (call c self) = RM self.
Proof. done. Qed.

Lemma written_written c vals : written c (written c vals) = written c vals.
Proof.
  apply map_eq. intros key. rewrite !lookup_written.
  by destruct (passed c key).
Qed.

(** Calling [setRegionProperties] twice with the same arguments is the
    same as calling it once. *)
Theorem setRegionProperties_idempotent c self :
  call c (call c self) = call c self.
Proof.
  apply modelling_eq; [|done..]. apply map_eq. intros r.
  destruct (decide (c_region c = r)) as [<-|Hne].
  - rewrite !lookup_call_eq. simpl. by rewrite written_written.
  - by rewrite !lookup_call_ne.
Qed.

(** Calls for different regions commute. *)
Theorem setRegionProperties_commute c1 c2 self :
  c_region c1 ≠ c_region c2 →
  call c1 (call c2 self) = call c2 (call c1 self).
Proof.
  intros Hne. apply modelling_eq; [|done..]. apply map_eq. intros r.
  destruct (decide (c_region c1 = r)) as [<-|H1].
  - rewrite lookup_call_eq, !(lookup_call_ne c2), lookup_call_eq by done.
    done.
  - rewrite (lookup_call_ne c1) by done.
    destruct (decide (c_region c2 = r)) as [<-|H2].
    + by rewrite !lookup_call_eq, lookup_call_ne.
    + by rewrite !lookup_call_ne.
Qed.


(** What one application raises depends on the record only. *)
Lemma applyRegion_error rID rID' vals RM RM' (e : PyExc) :
  applyRegion rID vals RM = inl e → applyRegion rID' vals RM' = inl e.
Proof.
  unfold applyRegion, getitem, bind, ret, raise.
  destruct (vals !! "startModel") as [sm|]; [|done].
  destruct (vals !! "trans") as [tr|]; [|done].
  destruct (vals !! "limits") as [lim|]; [|done].
  destruct (subscript lim 0) as [|lo]; [done|].
  destruct (gt0 lo) as [|blo]; [done|].
  destruct (subscript lim 1) as [|hi]; [done|].
  by destruct (gt0 hi) as [|bhi].
Qed.

Lemma applyItems_raises (items : list (Z * gmap string PyVal)) RM rID vals
    (e : PyExc) :
  NoDup items.*1 →
  (rID, vals) ∈ items →
  applyRegion rID vals RM = inl e →
  (∀ rID' vals', (rID', vals') ∈ items → rID' ≠ rID → applicable vals') →
  applyItems items RM = inl e.
Proof.
  revert RM. induction items as [|[r v] items IH]; intros RM Hnd Hin He Hrest.
  - by apply elem_of_nil in Hin.
  - apply NoDup_cons in Hnd as [Hfresh Hnd]. simpl in *.
    apply elem_of_cons in Hin as [[= <- <-]|Hin]; [by rewrite He|].
    assert (r ≠ rID) as Hne.
    { intros ->. apply Hfresh. apply list_elem_of_fmap.
      by exists (rID, vals). }
    rewrite applyRegion_applicable
      by (apply (Hrest r v); [apply list_elem_of_here|done]).
    unfold bind. apply IH; [done..| |].
    + by eapply applyRegion_error.
    + intros r' v' Hin' Hne'. apply (Hrest r' v'); [|done].
      by apply list_elem_of_further.
Qed.

(** If one record of the cache cannot be read and all the others can,
    applying the cache raises what that record raises. *)
Lemma apply_raises self rID vals (e : PyExc) :
  _regionProperties self !! rID = Some vals →
  applyRegion rID vals ∅ = inl e →
  (∀ rID' vals',
      rID' ≠ rID → _regionProperties self !! rID' = Some vals' →
      applicable vals') →
  _applyRegionProperties self = inl e.
Proof.
  intros Hvals He Hrest. unfold _applyRegionProperties.
  rewrite (applyItems_raises _ _ rID vals e); [done| | | |].
  - apply NoDup_fst_map_to_list.
  - by apply elem_of_map_to_list.
  - by eapply applyRegion_error.
  - intros r' v' Hin Hne. apply elem_of_map_to_list in Hin.
    by eapply Hrest.
Qed.

(** Limits that are too short, or not a sequence, surface when the cache
    is applied, not when they are set: with limits of fewer than two
    entries, [regionManager()] raises [IndexError]; with a number in
    place of the limits it raises [TypeError]. *)
Theorem regionManager_bad_limits self (region : Z) (lim : PyVal) :
  wf_cache (_regionProperties self) →
  let self' :=
    setRegionProperties region None (Some lim) None None None None self in
  ((lim = PyList [] ∨ ∃ lo, number lo ∧ lim = PyList [lo]) →
     regionManager self' = inl IndexError) ∧
  (number lim → regionManager self' = inl TypeError).
Proof.
  intros Hwf self'.
  set (c := mkCall region None (Some lim) None None None None).
  change self' with (call c self). clear self'. set (self' := call c self).
  assert (∃ vals,
    _regionProperties self' !! region = Some vals ∧
    is_Some (vals !! "startModel") ∧ is_Some (vals !! "trans") ∧
    vals !! "limits" = Some lim) as (vals & Hvals & [sm Hsm] & [tr Htr] & Hlim).
  { exists (written c (default defaults (_regionProperties self !! region))).
    split; [apply (lookup_call_eq c self)|].
    rewrite !lookup_written.
    change (passed c "startModel") with (@None PyVal).
    change (passed c "trans") with (@None PyVal).
    change (passed c "limits") with (Some lim).
    split; [|split; [|done]].
    - destruct (_regionProperties self !! region) as [v|] eqn:E; simpl.
      + pose proof (Hwf _ _ E) as Hv. unfold wf_record, applicable in Hv.
        rewrite !andb_True, !bool_decide_spec in Hv. tauto.
      + by apply (bool_decide_unpack _).
    - destruct (_regionProperties self !! region) as [v|] eqn:E; simpl.
      + pose proof (Hwf _ _ E) as Hv. unfold wf_record, applicable in Hv.
        rewrite !andb_True, !bool_decide_spec in Hv. tauto.
      + by apply (bool_decide_unpack _). }
  assert (∀ rID' vals',
    rID' ≠ region → _regionProperties self' !! rID' = Some vals' →
    applicable vals') as Hrest.
  { intros r' v' Hne. unfold self'.
    rewrite (lookup_call_ne c self r') by done. intros E.
    by apply (wf_applicable _ Hwf r' v'). }
  assert (∀ e, applyRegion region vals ∅ = inl e → regionManager self' = inl e)
    as Hraise.
  { intros e He. unfold regionManager.
    by rewrite (apply_raises self' region vals e). }
  split.
  - intros Hshort. apply Hraise.
    unfold applyRegion, getitem. rewrite Hsm, Htr, Hlim. unfold bind, ret.
    destruct Hshort as [->|(lo & Nlo & ->)]; [done|]. simpl.
    rewrite (gt0_number lo) by done. done.
  - intros Nlim. apply Hraise.
    unfold applyRegion, getitem. rewrite Hsm, Htr, Hlim. unfold bind, ret.
    by destruct lim.
Qed.

(** Applying the cache touches the cached regions only, and never takes
    a bound away: a region without a record keeps all its hints, and a
    bound that was set stays set. *)
Theorem applyRegionProperties_frame self self' :
  _applyRegionProperties self = inr self' →
  (∀ rID, _regionProperties self !! rID = None →
          RM self' !! rID = RM self !! rID) ∧
  (∀ rID, is_Some (lowerBound (region (RM self) rID)) →
          is_Some (lowerBound (region (RM self') rID))) ∧
  (∀ rID, is_Some (upperBound (region (RM self) rID)) →
          is_Some (upperBound (region (RM self') rID))).
Proof.
  intros E. pose proof (apply_inr _ _ E) as Hall.
  rewrite apply_applicable in E by done. injection E as <-. simpl.
  split; [|split].
  - intros rID Hnone. by rewrite lookup_appliedAll, Hnone.
  - intros rID Hset. unfold region at 1. rewrite lookup_appliedAll.
    destruct (_regionProperties self !! rID) as [vals|]; [|done].
    unfold applied; simpl. destruct (limit vals 0) as [lo|]; [|done].
    by destruct (positive lo).
  - intros rID Hset. unfold region at 1. rewrite lookup_appliedAll.
    destruct (_regionProperties self !! rID) as [vals|]; [|done].
    unfold applied; simpl. destruct (limit vals 1) as [hi|]; [|done].
    by destruct (positive hi).
Qed.

(** [clearRegionProperties] empties the cache and does not undo what was
    applied: after the cache was applied and then cleared, the next
    [regionManager()] returns, with every region still carrying the hints
    of the record it had. *)
Theorem clearRegionProperties_keeps_hints self :
  wf_cache (_regionProperties self) →
  ∃ self1 self2,
    _applyRegionProperties self = inr self1 ∧
    _regionProperties (clearRegionProperties self1) = ∅ ∧
    regionManager (clearRegionProperties self1) = inr (self2, RM self2) ∧
    RM self2 = RM self1 ∧
    ∀ rID vals,
      _regionProperties self !! rID = Some vals →
      hints_set vals (region (RM self2) rID).
Proof.
  intros Hwf.
  destruct (apply_again self (wf_applicable _ Hwf)) as (self1 & E & _).
  exists self1, (clearRegionProperties self1).
  split; [done|]. split; [done|]. split; [|split; [done|]].
  - unfold regionManager, _applyRegionProperties, clearRegionProperties; simpl.
    by rewrite map_to_list_empty.
  - change (RM (clearRegionProperties self1)) with (RM self1).
    by apply applied_cache.
Qed.

(** The transformation given to the setter of [transModel] is what the
    getter returns, unless the region manager has local transformations:
    then the getter returns the region manager's, whatever was set. *)
Theorem transModel_set_get `{NativeRM} self (tm : Trans) :
  wf_cache (_regionProperties self) →
  ∃ self',
    transModel (set_transModel tm self) =
      inr (self', if haveLocalTrans (RM self') then rmTransModel (RM self')
                  else tm) ∧
    _transModel self' = tm.
Proof.
  intros Hwf. pose proof (wf_applicable _ Hwf) as Hall.
  destruct (transModel_spec (set_transModel tm self) Hall) as (self' & E & Ea).
  exists self'. split; [done|].
  rewrite apply_applicable in Ea by done. by injection Ea as <-.
Qed.


End CacheMore.

(** * [Block1DModelling.setLayers] *)

Section Layers.

Import RegionManager.

Implicit Types (m : Modelling) (self : Block1DModelling).

Lemma elem_of_range (n : Z) (r : Z) :
  r ∈ Z.of_nat <$> range n ↔ 0 <= r < n.
Proof.
  unfold range. rewrite list_elem_of_fmap. split.
  - intros (i & -> & Hi). apply elem_of_seq in Hi. lia.
  - intros Hr. exists (Z.to_nat r). split; [lia|]. apply elem_of_seq. lia.
Qed.

Lemma logRegion_call i m :
  Block1D.logRegion i m =
    call (mkCall (Z.of_nat i) None None (Some (PyStr "log")) None None None) m.
Proof. done. Qed.

Lemma logRegions_snoc (l : list nat) i m :
  Block1D.logRegions (l ++ [i]) m =
    call (mkCall (Z.of_nat i) None None (Some (PyStr "log")) None None None)
      (Block1D.logRegions l m).
Proof. unfold Block1D.logRegions. by rewrite foldl_app. Qed.

(** The cache after [setRegionProperties(i, trans='log')] for every [i]
    of a list. *)
Lemma logRegions_spec (l : list nat) m :
  (∀ r, stored (Block1D.logRegions l m) r "trans" =
          if decide (r ∈ Z.of_nat <$> l) then Some (PyStr "log")
          else stored m r "trans") ∧
  (∀ r, r ∉ Z.of_nat <$> l →
        _regionProperties (Block1D.logRegions l m) !! r =
          _regionProperties m !! r) ∧
  (wf_cache (_regionProperties m) →
   wf_cache (_regionProperties (Block1D.logRegions l m))) ∧
  RM (Block1D.logRegions l m) = RM m ∧
  _transModel (Block1D.logRegions l m) = _transModel m.
Proof.
  induction l as [|i l IH] using rev_ind.
  - by repeat split.
  - rewrite logRegions_snoc. destruct IH as (Ht & Hk & Hwf & HRM & Htm).
    set (c := mkCall (Z.of_nat i) None None (Some (PyStr "log")) None None None).
    split; [|split; [|split; [|split]]].
    + intros r. rewrite stored_call, fmap_app, Ht.
      change (passed c "trans") with (Some (PyStr "log")).
      change (c_region c) with (Z.of_nat i).
      change (Z.of_nat <$> [i]) with [Z.of_nat i].
      destruct (decide (Z.of_nat i = r)) as [<-|Hne].
      * rewrite decide_True; [done|]. apply elem_of_app. right.
        by apply list_elem_of_singleton.
      * destruct (decide (r ∈ Z.of_nat <$> l)) as [Hin|Hnin].
        -- rewrite decide_True; [done|]. apply elem_of_app. by left.
        -- rewrite decide_False; [done|]. intros Hin.
           apply elem_of_app in Hin as [?|Hr%list_elem_of_singleton];
             [done|congruence].
    + intros r Hr. rewrite fmap_app in Hr. apply not_elem_of_app in Hr as [Hr Hi].
      rewrite lookup_call_ne; [by apply Hk|].
      change (c_region c) with (Z.of_nat i). intros <-. apply Hi.
      by apply list_elem_of_singleton.
    + intros Hw. apply wf_call; [by apply Hwf|done].
    + by rewrite RM_call.
    + by rewrite transModel_call.
Qed.

(** [setLayers] refuses fewer than two layers.  Otherwise it gives every
    region 0 .. [_nBlocks] the transformation 'log', in the cache and,
    the cache being applied at once, in the region manager, whatever
    transformation was cached for these regions before; the records of
    the other regions stay, and the Jacobian gets [2 * nLayers - 1]
    threads. *)
Theorem setLayers_log `{NativeMesh1D} nLayers self :
  wf_cache (_regionProperties (modelling self)) →
  (nLayers < 2 →
     Block1D.setLayers nLayers self =
       inl (Exception "Number of layers need to be at least 2")) ∧
  (2 <= nLayers →
     ∃ self',
       Block1D.setLayers nLayers self = inr self' ∧
       (∀ i, 0 <= i <= _nBlocks self →
             stored (modelling self') i "trans" = Some (PyStr "log") ∧
             modelTrans (region (RM (modelling self')) i) =
               Some (PyStr "log")) ∧
       (∀ r, ¬ (0 <= r <= _nBlocks self) →
             _regionProperties (modelling self') !! r =
               _regionProperties (modelling self) !! r) ∧
       threadCount self' =
         (if _withMultiThread self then Some (2 * nLayers - 1)
          else threadCount self) ∧
       _nBlocks self' = _nBlocks self).
Proof.
  intros Hwf. unfold Block1D.setLayers. split.
  - intros Hfew. by rewrite (proj2 (Z.ltb_lt _ _) Hfew).
  - intros Hl. rewrite (proj2 (Z.ltb_ge _ _) Hl).
    set (self1 := Block1D.setMesh (Mesh1DBlock nLayers (_nBlocks self)) false self).
    assert (_regionProperties (modelling self1) =
            _regionProperties (modelling self)) as Hprops
      by (unfold self1, Block1D.setMesh; by destruct (blockFop self)).
    assert (_nBlocks self1 = _nBlocks self) as HnB
      by (unfold self1, Block1D.setMesh; by destruct (blockFop self)).
    assert (_withMultiThread self1 = _withMultiThread self) as Hmt
      by (unfold self1, Block1D.setMesh; by destruct (blockFop self)).
    assert (threadCount self1 = threadCount self) as Htc
      by (unfold self1, Block1D.setMesh; by destruct (blockFop self)).
    destruct (logRegions_spec (range (_nBlocks self1 + 1)) (modelling self1))
      as (Ht & Hk & Hw & _ & _).
    set (m := Block1D.logRegions (range (_nBlocks self1 + 1)) (modelling self1))
      in *.
    rewrite Hprops in Hw. specialize (Hw Hwf).
    rewrite apply_applicable by by apply wf_applicable.
    unfold bind, ret. eexists. split; [done|]. simpl.
    rewrite HnB in *. rewrite Hmt, Htc.
    split; [|split; [|done]].
    + intros i Hi.
      pose proof (Ht i) as Hti. rewrite decide_True in Hti
        by (apply elem_of_range; lia).
      split; [done|]. unfold stored in Hti.
      destruct (_regionProperties m !! i) as [vals|] eqn:E; [|done].
      rewrite (region_appliedAll _ _ _ vals) by done.
      unfold applied; simpl. done.
    + intros r Hr. rewrite Hk, Hprops; [done|].
      rewrite elem_of_range. lia.
Qed.

End Layers.

(** * More on the per-sounding bookkeeping *)

Section SoundingsMore.

Implicit Types (self : LCModelling) (par : list Q).
Implicit Types (dataVals : list (list Q)) (nLayers : Z).

Lemma for_app {S : Type} (l1 l2 : list nat) (body : nat → S → Res S) (s : S) :
  for_ (l1 ++ l2) body s = (do s' <- for_ l1 body s; for_ l2 body s').
Proof.
  revert s. induction l1 as [|i l1 IH]; intros s; simpl; [done|].
  unfold bind. destruct (body i s) as [e|s1]; [done|]. apply IH.
Qed.

(** A loop over [range(n)] whose body raises at step [k], having kept an
    invariant until then, raises the same. *)
Lemma for_range_raises {S : Type} (P : nat → S → Prop)
    (body : nat → S → Res S) (n : Z) (k : nat) (s : S) (e : PyExc) :
  (k < Z.to_nat n)%nat →
  P 0%nat s →
  (∀ i s, (i < k)%nat → P i s →
          ∃ s', body i s = inr s' ∧ P (Datatypes.S i) s') →
  (∀ s, P k s → body k s = inl e) →
  for_ (range n) body s = inl e.
Proof.
  intros Hk H0 Hstep Hfail. unfold range.
  replace (Z.to_nat n) with (k + Datatypes.S (Z.to_nat n - Datatypes.S k))%nat
    by lia.
  rewrite seq_app, for_app.
  destruct (for_seq P body 0 k s H0) as (s' & E & Hs').
  { intros i t Hi. apply Hstep. lia. }
  rewrite E. unfold bind. simpl. by rewrite (Hfail s' Hs').
Qed.

Lemma reshape_mismatch {A : Type} (n p : Z) (l : list A) :
  0 <= n → 0 <= p → Z.of_nat (length l) ≠ n * p →
  reshape n p l = inl ValueError.
Proof.
  intros Hn Hp Hsize. unfold reshape.
  destruct (Z.ltb_spec n 0); [lia|]. destruct (Z.ltb_spec p 0); [lia|].
  simpl. by destruct (Z.eqb_spec (Z.of_nat (length l)) (n * p)).
Qed.

(** A parameter vector that does not have [_nSoundings * _parPerSounding]
    entries makes [response] and [createJacobian] raise [ValueError],
    before any operator is called. *)
Theorem response_wrong_length `{NativeFop} self par :
  0 <= _nSoundings self → 0 <= _parPerSounding self →
  Z.of_nat (length par) ≠ _nSoundings self * _parPerSounding self →
  response par self = inl ValueError ∧
  createJacobian par self = inl ValueError.
Proof.
  intros Hn Hp Hsize. unfold response, createJacobian.
  by rewrite reshape_mismatch.
Qed.

(** With fewer operators in [_fops1D] than soundings, as after
    [createParametrization] alone, [response] and [createJacobian] raise
    [IndexError]. *)
Theorem response_missing_operators `{NativeFop} self par :
  0 <= _nSoundings self → 0 <= _parPerSounding self →
  Z.of_nat (length par) = _nSoundings self * _parPerSounding self →
  (length (_fops1D self) < Z.to_nat (_nSoundings self))%nat →
  response par self = inl IndexError ∧
  createJacobian par self = inl IndexError.
Proof.
  intros Hn Hp Hsize Hfew. unfold response, createJacobian.
  rewrite reshape_counts by done. split.
  - unfold bind at 1. apply (for_range_raises (fun _ _ => True) _ _ (length (_fops1D self)));
      [done|done| |].
    + intros i resp Hi _.
      destruct (lookup_lt_is_Some_2 (_fops1D self) i) as [f Hf]; [done|].
      unfold index. rewrite Hf, lookup_rows by lia. by eexists.
    + intros resp _. unfold index.
      by rewrite (lookup_ge_None_2 (_fops1D self)).
  - unfold bind at 1.
    match goal with
    | |- context [for_ ?r ?b ?s] =>
        assert (for_ r b s = inl IndexError) as ->; [|done]
    end.
    apply (for_range_raises
             (fun _ fops => length fops = length (_fops1D self)) _ _
             (length (_fops1D self))); [done|done| |].
    + intros i fops Hi Hlen.
      destruct (lookup_lt_is_Some_2 fops i) as [f Hf]; [lia|].
      unfold index. rewrite Hf, lookup_rows by lia.
      eexists. split; [done|]. by rewrite length_insert.
    + intros fops Hlen. unfold index.
      rewrite (lookup_ge_None_2 fops); [done|lia].
Qed.




Lemma imap_fmap_seq {A B : Type} (g : nat → A → B) (h : nat → A) (n : nat) :
  imap g (h <$> seq 0 n) = (fun i => g i (h i)) <$> seq 0 n.
Proof.
  apply list_eq. intros i.
  rewrite list_lookup_imap, !list_lookup_fmap.
  destruct (decide (i < n)%nat).
  - by rewrite lookup_seq_lt.
  - by rewrite lookup_seq_ge by lia.
Qed.

(** On a new object, one [initJacobian] makes the object usable: with one
    operator per sounding in [_fops1D], [response] returns the responses
    of these operators to their chunks, in order, and [createJacobian]
    calls each of them once, on its chunk. *)
Theorem first_initJacobian_serves `{NativeFop} (fop : Fop) (verbose : bool)
    dataVals nLayers par :
  1 <= nLayers →
  Z.of_nat (length par) = Z.of_nat (length dataVals) * (2 * nLayers - 1) →
  let self0 := LCModelling__init__ fop verbose in
  let p := Z.to_nat (2 * nLayers - 1) in
  ∃ self' self'',
    initJacobian dataVals nLayers self0 = inr self' ∧
    _fops1D self' = newFop self0 nLayers <$> seq 0 (length dataVals) ∧
    response par self' =
      inr (concat ((fun i => fopResponse (newFop self0 nLayers i)
                               (chunk p i par))
                     <$> seq 0 (length dataVals))) ∧
    createJacobian par self' = inr self'' ∧
    createJacobianCalls <$> _fops1D self'' =
      (fun i => [chunk p i par]) <$> seq 0 (length dataVals).
Proof.
  intros Hl Hsize self0 p.
  destruct (initJacobian_spec self0 dataVals nLayers Hl)
    as (self' & B & E & _ & _ & Hn & Hp & Hf & _).
  change (_fops1D self0) with (@nil Fop) in Hf. rewrite app_nil_l in Hf.
  pose proof (initJacobian_ready _ _ _ _ Hl E) as Hready.
  assert (Z.of_nat (length par) = _nSoundings self' * _parPerSounding self')
    as Hsize' by by rewrite Hn, Hp.
  destruct (createJacobian_delegates self' par Hready Hsize')
    as (self'' & Ec & Hcalled & Hrest & _).
  exists self', self''. split; [done|]. split; [done|].
  split; [|split; [done|]].
  - rewrite response_stitches by done. f_equal. unfold stitched.
    rewrite Hn, Hp, Hf, Nat2Z.id.
    rewrite take_ge by by rewrite length_fmap, length_seq.
    by rewrite imap_fmap_seq.
  - rewrite Hn, Hp, Nat2Z.id in Hcalled. rewrite Hn, Nat2Z.id in Hrest.
    fold p in Hcalled.
    apply list_eq. intros i. rewrite !list_lookup_fmap.
    destruct (decide (i < length dataVals)%nat) as [Hi|Hi].
    + rewrite (Hcalled i (newFop self0 nLayers i) Hi)
        by by rewrite Hf, list_lookup_fmap, lookup_seq_lt.
      by rewrite lookup_seq_lt.
    + rewrite Hrest, Hf, list_lookup_fmap by lia.
      by rewrite lookup_seq_ge by lia.
Qed.

Lemma startModels_spec `{NativeStartModel} (fops : list Fop) (i : nat)
    (models : list (list Q)) nLayers (sm : list Q) :
  startModels fops i models nLayers sm =
    if decide (length fops ≤ length models - i)%nat
    then inr (sm ++ concat (zip_with (fun f m => fopCreateStartModel f m nLayers)
                              fops (drop i models)))
    else inl IndexError.
Proof.
  revert i sm. induction fops as [|f fops IH]; intros i sm.
  - destruct (decide _) as [_|Hn]; [|simpl in Hn; lia].
    simpl. by rewrite app_nil_r.
  - change (startModels (f :: fops) i models nLayers sm) with
      (do m <- index models i;
       startModels fops (S i) models nLayers
         (sm ++ fopCreateStartModel f m nLayers)).
    unfold index, bind, ret, raise.
    destruct (models !! i) as [m|] eqn:Hm.
    + rewrite IH. apply lookup_lt_Some in Hm as Hlt.
      rewrite (drop_S _ m i) by done.
      destruct (decide _) as [H1|H1]; destruct (decide _) as [H2|H2];
        simpl in *; try lia; [|done].
      by rewrite <- app_assoc.
    + apply lookup_ge_None in Hm.
      destruct (decide _) as [H1|H1]; [simpl in H1; lia|done].
Qed.

(** [createStartModel] goes through all of [_fops1D], not through the
    first [_nSoundings] operators: it needs a model for every operator
    the list holds and raises [IndexError] if [models] is shorter;
    otherwise it returns, and installs, the start models of the operators
    one after the other. *)
Theorem LC_createStartModel_spec `{NativeStartModel} (models : list (list Q))
    nLayers self :
  ((length (_fops1D self) ≤ length models)%nat →
     let sm := concat (zip_with (fun f m => fopCreateStartModel f m nLayers)
                         (_fops1D self) models) in
     LC_createStartModel models nLayers self = inr (sm, sm)) ∧
  ((length models < length (_fops1D self))%nat →
     LC_createStartModel models nLayers self = inl IndexError).
Proof.
  unfold LC_createStartModel. rewrite startModels_spec. simpl. split.
  - intros Hle. by rewrite decide_True by lia.
  - intros Hlt. by rewrite decide_False by lia.
Qed.

Lemma length_slice_add a b v (cm : list Z) :
  length (slice_add a b v cm) = length cm.
Proof. unfold slice_add. apply length_imap. Qed.

Lemma lookup_slice_add a b v (cm : list Z) (idx : nat) :
  0 <= a → a <= b → b <= Z.of_nat (length cm) →
  slice_add a b v cm !! idx =
    (fun x => if (a <=? Z.of_nat idx) && (Z.of_nat idx <? b) then x + v else x)
      <$> cm !! idx.
Proof.
  intros Ha Hab Hb. unfold slice_add, clip. rewrite list_lookup_imap.
  destruct (Z.ltb_spec a 0); [lia|]. destruct (Z.ltb_spec b 0); [lia|].
  by rewrite !Z.min_l by lia.
Qed.

Lemma lookup_repeat {A : Type} (x : A) (n i : nat) :
  (i < n)%nat → repeat x n !! i = Some x.
Proof.
  revert i. induction n as [|n IH]; intros i Hi; [lia|].
  destruct i as [|i]; simpl; [done|]. apply IH. lia.
Qed.

Lemma cell_index (p nSoundings : Z) (i k : nat) :
  Z.of_nat i < nSoundings → Z.of_nat k < p →
  Z.of_nat (i * Z.to_nat p + k) = Z.of_nat i * p + Z.of_nat k ∧
  (i * Z.to_nat p + k < Z.to_nat (p * nSoundings))%nat.
Proof.
  intros Hi Hk.
  assert (Z.of_nat (i * Z.to_nat p + k) = Z.of_nat i * p + Z.of_nat k) as Heq
    by (rewrite Nat2Z.inj_add, Nat2Z.inj_mul, Z2Nat.id; lia).
  split; [done|]. apply Nat2Z.inj_lt. rewrite Heq, Z2Nat.id by nia.
  assert ((Z.of_nat i + 1) * p <= nSoundings * p) by nia. lia.
Qed.

(** The markers after the soundings before [n] were told apart. *)
Lemma regionMarkers_upto (nSoundings nLayers : Z) (n : nat) :
  1 <= nLayers → (n ≤ Z.to_nat nSoundings)%nat →
  let p := 2 * nLayers - 1 in
  let cm := foldl (fun cm i =>
              foldl (fun cm j =>
                slice_add
                  (Z.of_nat i * p + (Z.of_nat j + 1) * nLayers - 1)
                  (Z.of_nat i * p + (Z.of_nat j + 2) * nLayers - 1)
                  (Z.of_nat j + 1) cm)
                cm (range 1))
              (repeat 1 (Z.to_nat (p * nSoundings))) (seq 0 n) in
  length cm = Z.to_nat (p * nSoundings) ∧
  ∀ i k : nat,
    Z.of_nat i < nSoundings → Z.of_nat k < p →
    cm !! (i * Z.to_nat p + k)%nat =
      Some (if (i <? n)%nat && (nLayers - 1 <=? Z.of_nat k) then 2 else 1).
Proof.
  intros Hl Hn p. induction n as [|n IH].
  - simpl. split; [by rewrite repeat_length|].
    intros i k Hi Hk. apply lookup_repeat. by apply cell_index.
  - rewrite seq_S, foldl_app. simpl.
    destruct (IH ltac:(lia)) as [Hlen Hcm]. clear IH.
    set (cm := foldl _ _ (seq 0 n)) in *.
    split; [by rewrite length_slice_add|].
    intros i k Hi Hk.
    destruct (cell_index p nSoundings i k Hi Hk) as [Hidx _].
    assert ((Z.of_nat n + 1) * p <= nSoundings * p) by nia.
    rewrite lookup_slice_add, (Hcm i k)
      by (rewrite ?Hlen, ?Z2Nat.id; done || nia).
    simpl. f_equal. rewrite Hidx.
    assert ((i < n)%nat → Z.of_nat i * p + p <= Z.of_nat n * p) as Hbelow
      by (intros; nia).
    assert ((n < i)%nat → Z.of_nat n * p + p <= Z.of_nat i * p) as Habove
      by (intros; nia).
    assert (i = n → Z.of_nat i * p = Z.of_nat n * p) as Hsame
      by (by intros ->).
    assert (p = 2 * nLayers - 1) as Hp by done.
    remember (Z.of_nat i * p) as ip eqn:Eip.
    remember (Z.of_nat n * p) as np eqn:Enp. clear Eip Enp Hidx Hcm.
    change (Z.of_nat 0) with 0.
    destruct (Z.leb_spec (nLayers - 1) (Z.of_nat k));
      destruct (Nat.ltb_spec i n); destruct (Nat.ltb_spec i (S n));
      destruct (Z.leb_spec (np + (0 + 1) * nLayers - 1) (ip + Z.of_nat k));
      destruct (Z.ltb_spec (ip + Z.of_nat k) (np + (0 + 2) * nLayers - 1));
      simpl; try done; exfalso; lia.
Qed.

(** What [createParametrization] makes of the mesh, for one parameter
    type: [2 * nLayers] by [nSoundings + 1] nodes, one cell per
    parameter, every cell marked 1 when the object keeps a single
    region, and otherwise, in every sounding, the first [nLayers - 1]
    cells marked 1 and the [nLayers] cells after them marked 2.  The mesh
    is kept in [_mesh] and handed to the forward operator if the object
    has one, to the native base class if not. *)
Theorem createParametrization_markers (nSoundings nLayers : Z) self :
  0 <= nSoundings → 1 <= nLayers →
  ∃ self' m,
    createParametrization nSoundings nLayers 1 self = inr self' ∧
    _mesh self' = Some m ∧
    (fop self = None → mesh self' = Some m) ∧
    (is_Some (fop self) →
       mesh self' = mesh self ∧ fopMesh <$> fop self' = Some (Some m)) ∧
    _nSoundings self' = nSoundings ∧
    _parPerSounding self' = 2 * nLayers - 1 ∧
    length (xs m) = Z.to_nat (2 * nLayers) ∧
    length (ys m) = Z.to_nat (nSoundings + 1) ∧
    length (cellMarkers m) = Z.to_nat ((2 * nLayers - 1) * nSoundings) ∧
    ∀ i k : nat,
      Z.of_nat i < nSoundings → Z.of_nat k < 2 * nLayers - 1 →
      cellMarkers m !! (i * Z.to_nat (2 * nLayers - 1) + k)%nat =
        Some (if _singleRegion self then 1
              else if Z.of_nat k <? nLayers - 1 then 1 else 2).
Proof.
  intros Hn Hl. unfold createParametrization, ones.
  replace ((1 + 1) * nLayers - 1) with (2 * nLayers - 1) by lia.
  destruct (Z.ltb_spec ((2 * nLayers - 1) * nSoundings) 0); [nia|].
  unfold bind, ret. do 2 eexists. split; [done|].
  split; [unfold setMesh; by destruct (fop self)|].
  split; [unfold setMesh; simpl; by intros ->|].
  split; [unfold setMesh; simpl; intros [f ->]; by split|].
  split; [unfold setMesh; by destruct (fop self)|].
  split; [unfold setMesh; by destruct (fop self)|]. simpl.
  rewrite !length_fmap. unfold range at 1 2. rewrite !length_seq.
  split; [f_equal; lia|]. split; [done|].
  destruct (_singleRegion self).
  - split; [by rewrite repeat_length|].
    intros i k Hi Hk. apply lookup_repeat. by apply cell_index.
  - destruct (regionMarkers_upto nSoundings nLayers (Z.to_nat nSoundings)
                Hl ltac:(lia)) as [Hlen Hcm].
    split; [exact Hlen|]. intros i k Hi Hk.
    etrans; [exact (Hcm i k Hi Hk)|]. f_equal.
    destruct (Nat.ltb_spec i (Z.to_nat nSoundings)); [|lia]. simpl.
    by destruct (Z.leb_spec (nLayers - 1) (Z.of_nat k));
      destruct (Z.ltb_spec (Z.of_nat k) (nLayers - 1)); try lia.
Qed.

End SoundingsMore.

(** * The further theorems at concrete objects *)

Lemma setRegionProperties_commute_witness :
  c_region exampleCall ≠ c_region exampleCall2 ∧
  call exampleCall (call exampleCall2 exampleModelling) =
    call exampleCall2 (call exampleCall exampleModelling).
Proof.
  assert (c_region exampleCall ≠ c_region exampleCall2) as Hne
    by (vm_compute; discriminate).
  split; [exact Hne|].
  exact (setRegionProperties_commute exampleCall exampleCall2
           exampleModelling Hne).
Defined.

Lemma regionManager_bad_limits_witness :
  wf_cache (_regionProperties exampleModelling) ∧
  regionManager
    (setRegionProperties 1 None (Some (PyList [PyInt 5])) None None None None
       exampleModelling) = inl IndexError ∧
  regionManager
    (setRegionProperties 1 None (Some (PyInt 5)) None None None None
       exampleModelling) = inl TypeError.
Proof.
  assert (wf_cache (_regionProperties exampleModelling)) as Hwf
    by (unfold wf_cache; apply (bool_decide_unpack _); vm_compute; exact I).
  split; [exact Hwf|]. split.
  - apply (proj1 (regionManager_bad_limits exampleModelling 1
                    (PyList [PyInt 5]) Hwf)).
    right. exists (PyInt 5). split; [exact I|reflexivity].
  - apply (proj2 (regionManager_bad_limits exampleModelling 1 (PyInt 5) Hwf)).
    exact I.
Defined.

Lemma applyRegionProperties_frame_witness :
  _applyRegionProperties exampleModelling = inr exampleApplied ∧
  ∀ rID, _regionProperties exampleModelling !! rID = None →
         RM exampleApplied !! rID = RM exampleModelling !! rID.
Proof.
  assert (_applyRegionProperties exampleModelling = inr exampleApplied) as E
    by (vm_compute; reflexivity).
  split; [exact E|].
  exact (proj1 (applyRegionProperties_frame exampleModelling exampleApplied E)).
Defined.

Lemma clearRegionProperties_keeps_hints_witness :
  wf_cache (_regionProperties exampleModelling) ∧
  ∃ self1 self2,
    _applyRegionProperties exampleModelling = inr self1 ∧
    _regionProperties (clearRegionProperties self1) = ∅ ∧
    regionManager (clearRegionProperties self1) = inr (self2, RM self2) ∧
    RM self2 = RM self1 ∧
    ∀ rID vals,
      _regionProperties exampleModelling !! rID = Some vals →
      hints_set vals (RegionManager.region (RM self2) rID).
Proof.
  assert (wf_cache (_regionProperties exampleModelling)) as Hwf
    by (unfold wf_cache; apply (bool_decide_unpack _); vm_compute; exact I).
  split; [exact Hwf|].
  exact (clearRegionProperties_keeps_hints exampleModelling Hwf).
Defined.

Lemma transModel_set_get_witness :
  wf_cache (_regionProperties exampleModelling) ∧
  ∃ self',
    @transModel plainRM (set_transModel RTransLogLU exampleModelling) =
      inr (self', RTransLogLU) ∧
    _transModel self' = RTransLogLU.
Proof.
  assert (wf_cache (_regionProperties exampleModelling)) as Hwf
    by (unfold wf_cache; apply (bool_decide_unpack _); vm_compute; exact I).
  split; [exact Hwf|].
  exact (@transModel_set_get plainRM exampleModelling RTransLogLU Hwf).
Defined.


Lemma setLayers_log_witness :
  wf_cache (_regionProperties (modelling exampleBlock)) ∧
  @Block1D.setLayers plainMesh 1 exampleBlock =
    inl (Exception "Number of layers need to be at least 2") ∧
  ∃ self',
    @Block1D.setLayers plainMesh 4 exampleBlock = inr self' ∧
    stored (modelling self') 0 "trans" = Some (PyStr "log") ∧
    stored (modelling self') 1 "trans" = Some (PyStr "log") ∧
    threadCount self' = Some 7.
Proof.
  assert (wf_cache (_regionProperties (modelling exampleBlock))) as Hwf
    by (unfold wf_cache; apply (bool_decide_unpack _); vm_compute; exact I).
  split; [exact Hwf|].
  destruct (@setLayers_log plainMesh 1 exampleBlock Hwf) as [Hfew _].
  destruct (@setLayers_log plainMesh 4 exampleBlock Hwf) as [_ Hlog].
  split; [exact (Hfew ltac:(lia))|].
  destruct (Hlog ltac:(lia)) as (self' & E & Hregions & _ & Hthreads & _).
  exists self'. split; [exact E|].
  split; [exact (proj1 (Hregions 0 ltac:(vm_compute; split; discriminate)))|].
  split; [exact (proj1 (Hregions 1 ltac:(vm_compute; split; discriminate)))|].
  exact Hthreads.
Defined.

Lemma response_wrong_length_witness :
  0 <= _nSoundings exampleLC1 ∧ 0 <= _parPerSounding exampleLC1 ∧
  Z.of_nat (length [1%Q; 2%Q])
    ≠ _nSoundings exampleLC1 * _parPerSounding exampleLC1 ∧
  @response taggingFop [1%Q; 2%Q] exampleLC1 = inl ValueError ∧
  createJacobian [1%Q; 2%Q] exampleLC1 = inl ValueError.
Proof.
  assert (0 <= _nSoundings exampleLC1) as Hn by (vm_compute; discriminate).
  assert (0 <= _parPerSounding exampleLC1) as Hp by (vm_compute; discriminate).
  assert (Z.of_nat (length [1%Q; 2%Q])
          ≠ _nSoundings exampleLC1 * _parPerSounding exampleLC1) as Hsize
    by (vm_compute; discriminate).
  split; [exact Hn|]. split; [exact Hp|]. split; [exact Hsize|].
  exact (@response_wrong_length taggingFop exampleLC1 [1%Q; 2%Q] Hn Hp Hsize).
Defined.

Lemma response_missing_operators_witness :
  0 <= _nSoundings exampleLC0 ∧ 0 <= _parPerSounding exampleLC0 ∧
  Z.of_nat (length examplePar)
    = _nSoundings exampleLC0 * _parPerSounding exampleLC0 ∧
  (length (_fops1D exampleLC0) < Z.to_nat (_nSoundings exampleLC0))%nat ∧
  @response taggingFop examplePar exampleLC0 = inl IndexError ∧
  createJacobian examplePar exampleLC0 = inl IndexError.
Proof.
  assert (0 <= _nSoundings exampleLC0) as Hn by (vm_compute; discriminate).
  assert (0 <= _parPerSounding exampleLC0) as Hp by (vm_compute; discriminate).
  assert (Z.of_nat (length examplePar)
          = _nSoundings exampleLC0 * _parPerSounding exampleLC0) as Hsize
    by (vm_compute; reflexivity).
  assert (length (_fops1D exampleLC0) < Z.to_nat (_nSoundings exampleLC0))%nat
    as Hfew by (vm_compute; lia).
  split; [exact Hn|]. split; [exact Hp|]. split; [exact Hsize|].
  split; [exact Hfew|].
  exact (@response_missing_operators taggingFop exampleLC0 examplePar
           Hn Hp Hsize Hfew).
Defined.


Lemma first_initJacobian_serves_witness :
  1 <= 2 ∧
  Z.of_nat (length examplePar) = Z.of_nat (length exampleData) * (2 * 2 - 1) ∧
  ∃ self' self'',
    initJacobian exampleData 2 (LCModelling__init__ ves true) = inr self' ∧
    @response taggingFop examplePar self' =
      inr [1%Q; 1%Q; 2%Q; 3%Q; 2%Q; 4%Q; 5%Q; 6%Q] ∧
    createJacobian examplePar self' = inr self'' ∧
    createJacobianCalls <$> _fops1D self'' =
      [[[1%Q; 2%Q; 3%Q]]; [[4%Q; 5%Q; 6%Q]]].
Proof.
  assert (1 <= 2) as Hl by lia.
  assert (Z.of_nat (length examplePar)
          = Z.of_nat (length exampleData) * (2 * 2 - 1)) as Hsize
    by (vm_compute; reflexivity).
  split; [exact Hl|]. split; [exact Hsize|].
  destruct (@first_initJacobian_serves taggingFop ves true exampleData 2
              examplePar Hl Hsize)
    as (self' & self'' & E & _ & Hr & Ec & Hcalls).
  exists self', self''. split; [exact E|]. split; [exact Hr|].
  split; [exact Ec|]. exact Hcalls.
Defined.

Lemma LC_createStartModel_spec_witness :
  (length (_fops1D exampleLC1) ≤ length exampleData)%nat ∧
  @LC_createStartModel echoStart exampleData 2 exampleLC1 =
    inr ([1%Q; 2%Q; 3%Q], [1%Q; 2%Q; 3%Q]) ∧
  (length [[1%Q]] < length (_fops1D exampleLC1))%nat ∧
  @LC_createStartModel echoStart [[1%Q]] 2 exampleLC1 = inl IndexError.
Proof.
  assert (length (_fops1D exampleLC1) ≤ length exampleData)%nat as Hle
    by (vm_compute; lia).
  assert (length [[1%Q]] < length (_fops1D exampleLC1))%nat as Hlt
    by (vm_compute; lia).
  split; [exact Hle|]. split.
  - exact (proj1 (@LC_createStartModel_spec echoStart exampleData 2 exampleLC1)
             Hle).
  - split; [exact Hlt|].
    exact (proj2 (@LC_createStartModel_spec echoStart [[1%Q]] 2 exampleLC1)
             Hlt).
Defined.

Lemma createParametrization_markers_witness :
  0 <= 2 ∧ 1 <= 3 ∧
  ∃ self' m,
    createParametrization 2 3 1 exampleLCregions = inr self' ∧
    _mesh self' = Some m ∧
    cellMarkers m = [1; 1; 2; 2; 2; 1; 1; 2; 2; 2].
Proof.
  assert (0 <= 2) as Hn by lia. assert (1 <= 3) as Hl by lia.
  split; [exact Hn|]. split; [exact Hl|].
  destruct (createParametrization_markers 2 3 exampleLCregions Hn Hl)
    as (self' & m & E & Hm & _).
  exists self', m. split; [exact E|]. split; [exact Hm|].
  vm_compute in E. injection E as <-. vm_compute in Hm.
  by injection Hm as <-.
Defined.
